(** * Void inline elements in a Slate rich-text editor

    A shallow embedding of [src/App.js]: the [withInlineVoid] plugin, whose
    [normalizeNode] keeps a caret position next to every [inlineVoid]
    element, and the toolbar commands [toggleBlock], [toggleMark],
    [isBlockActive] and [isMarkActive].

    The document is the tree of the specification (Root, Element, Text);
    the editor's mutable document is threaded explicitly through a small
    state-and-exception monad, an exception being a [throw] of the library
    (an address that does not resolve). *)

From Stdlib Require Import Ascii String ZArith Lia.
From stdpp Require Import base option list strings gmap.

Local Open Scope string_scope.
Local Open Scope list_scope.
Local Open Scope nat_scope.

(** ** JavaScript values stored as properties of a Text leaf *)

Inductive JsValue :=
  | VUndefined
  | VNull
  | VBool (b : bool)
  | VNumber (n : Z)
  | VString (s : string).

Global Instance JsValue_eq_dec : EqDecision JsValue.
Proof. solve_decision. Defined.

(** [ToBoolean] of the language. *)
Definition truthy (v : JsValue) : bool :=
  match v with
  | VUndefined | VNull => false
  | VBool b => b
  | VNumber n => negb (n =? 0)%Z
  | VString s => negb (String.eqb s "")
  end.

(** [a === b] on these values. *)
Definition strictEq (a b : JsValue) : bool := bool_decide (a = b).

(** The marks of a leaf: its own properties other than [text]. *)
Abbreviation Marks := (gmap string JsValue).

(** [obj[key]]: a missing property reads as [undefined]. *)
Definition getProp (obj : Marks) (key : string) : JsValue :=
  default VUndefined (obj !! key).

(** ** The document tree *)

Section node_def.
Local Unset Elimination Schemes.

Inductive Node :=
  | Text (text : string) (marks : Marks)
  | Element (type : string) (children : list Node)
  | Root (children : list Node).

Variable P : Node → Prop.
Hypothesis case_Text : ∀ text marks, P (Text text marks).
Hypothesis case_Element : ∀ type children,
  Forall P children → P (Element type children).
Hypothesis case_Root : ∀ children, Forall P children → P (Root children).

Fixpoint Node_ind (n : Node) : P n :=
  let all := fix all (cs : list Node) : Forall P cs :=
    match cs with
    | [] => Forall_nil_2 P
    | c :: cs' => Forall_cons_2 P c cs' (Node_ind c) (all cs')
    end in
  match n with
  | Text text marks => case_Text text marks
  | Element type children => case_Element type children (all children)
  | Root children => case_Root children (all children)
  end.
End node_def.

(** Structural equality of two trees, as a test. *)
Fixpoint Node_eqb (x y : Node) : bool :=
  match x, y with
  | Text s m, Text s' m' => bool_decide (s = s') && bool_decide (m = m')
  | Element ty cs, Element ty' cs' =>
      bool_decide (ty = ty') &&
      (fix go (l k : list Node) : bool :=
         match l, k with
         | [], [] => true
         | a :: l', b :: k' => Node_eqb a b && go l' k'
         | _, _ => false
         end) cs cs'
  | Root cs, Root cs' =>
      (fix go (l k : list Node) : bool :=
         match l, k with
         | [], [] => true
         | a :: l', b :: k' => Node_eqb a b && go l' k'
         | _, _ => false
         end) cs cs'
  | _, _ => false
  end.

(** [node.type]; a leaf and the editor itself have none ([undefined]). *)
Definition Node_type (n : Node) : option string :=
  match n with
  | Element type _ => Some type
  | Text _ _ | Root _ => None
  end.

(** [node.children] of an ancestor (an Element or the editor). *)
Definition Node_children (n : Node) : list Node :=
  match n with
  | Element _ children | Root children => children
  | Text _ _ => []
  end.

Definition isText (n : Node) : bool :=
  match n with Text _ _ => true | _ => false end.

(** ** Paths *)

Abbreviation Path := (list nat).
Abbreviation NodeEntry := (Node * Path)%type.

(** [path[path.length - 1]], [undefined] on the empty path. *)
Definition Path_lastIndex (path : Path) : option nat := last path.

(** [path.slice(0, -1)]. *)
Definition Path_init (path : Path) : Path := take (length path - 1) path.

(** Modelled from the spec: [Path.hasPrevious] is library code; section 4.1,
    the path has a previous index: [path[path.length - 1] > 0]. *)
Definition Path_hasPrevious (path : Path) : bool :=
  match Path_lastIndex path with
  | Some i => bool_decide (0 < i)
  | None => false
  end.

(** Modelled from the spec: [Path.parent] is library code; section 4.1, the
    path of the enclosing node, failing at the root. *)
Definition Path_parent (path : Path) : option Path :=
  match path with
  | [] => None
  | _ => Some (Path_init path)
  end.

(** Modelled from the spec: [Path.next] is library code; sections 4.1 and
    4.3, the path immediately following, failing at the root. *)
Definition Path_next (path : Path) : option Path :=
  match Path_lastIndex path with
  | Some i => Some (Path_init path ++ [i + 1])
  | None => None
  end.

(** Modelled from the spec: [Path.previous] is library code; section 4.1,
    the path of the previous sibling, failing at the root and on a first
    child. *)
Definition Path_previous (path : Path) : option Path :=
  match Path_lastIndex path with
  | Some i => if bool_decide (0 < i) then Some (Path_init path ++ [i - 1])
              else None
  | None => None
  end.

(** Modelled from the spec: [Node.get] is library code; sections 3 and 4.1,
    it walks the child indices from the root and fails with InvalidPath
    when an index is out of range (or the walk meets a leaf). *)
Fixpoint Node_get (root : Node) (path : Path) : option Node :=
  match path with
  | [] => Some root
  | i :: rest =>
      match root with
      | Text _ _ => None
      | Element _ children | Root children =>
          match children !! i with
          | Some child => Node_get child rest
          | None => None
          end
      end
  end.

(** [Node.has]: whether the path resolves. *)
Definition Node_has (root : Node) (path : Path) : bool :=
  bool_decide (is_Some (Node_get root path)).

(** Modelled from the spec: [Node.parent] is library code; section 4.1, the
    enclosing Element or Root of a path, failing at the root. *)
Definition Node_parent (root : Node) (path : Path) : option Node :=
  parentPath ← Path_parent path;
  p ← Node_get root parentPath;
  if isText p then None else Some p.

(** Modelled from the spec: [Node.nodes] is library code; section 4.3, every
    entry reachable from the root, here as paths in document order. *)
Fixpoint Node_paths (root : Node) : list Path :=
  [] ::
  match root with
  | Text _ _ => []
  | Element _ children | Root children =>
      (fix go (i : nat) (cs : list Node) : list Path :=
         match cs with
         | [] => []
         | c :: cs' => map (cons i) (Node_paths c) ++ go (S i) cs'
         end) 0 children
  end.

(** ** Editor code: state and exceptions

    A method of the editor reads and updates the editor's document and may
    throw; [None] is a thrown exception. *)

Definition M (A : Type) : Type := Node → option (A * Node).

Global Instance M_ret : MRet M := λ A a editor, Some (a, editor).

Global Instance M_bind : MBind M := λ A B k m editor,
  match m editor with
  | Some (a, editor') => k a editor'
  | None => None
  end.

(** A pure library call that may throw. *)
Definition throwing {A} (r : option A) : M A := λ editor,
  match r with
  | Some a => Some (a, editor)
  | None => None
  end.

(** A library call that reads the editor's document and may throw. *)
Definition reading {A} (f : Node → option A) : M A := λ editor,
  throwing (f editor) editor.

(** The document an editor method leaves behind, when it returns. *)
Definition exec {A} (m : M A) (editor : Node) : option Node :=
  snd <$> m editor.

(** ** Transforms *)

Definition Node_withChildren (n : Node) (children : list Node) : Node :=
  match n with
  | Text text marks => Text text marks
  | Element type _ => Element type children
  | Root _ => Root children
  end.

(** The [insert_node] operation on the document: [children.splice(index, 0,
    node)] in the parent of [at_]. *)
Fixpoint insertAt (node : Node) (at_ : Path) (root : Node) : option Node :=
  match at_ with
  | [] => None
  | i :: rest =>
      if isText root then None else
      let children := Node_children root in
      match rest with
      | [] =>
          if bool_decide (i ≤ length children)
          then Some (Node_withChildren root
                       (take i children ++ node :: drop i children))
          else None
      | _ :: _ =>
          child ← children !! i;
          child' ← insertAt node rest child;
          Some (Node_withChildren root (<[i := child']> children))
      end
  end.

(** Modelled from the spec: [Transforms.insertNodes] is code of the Slate
    library, not of this repository. Section 4.2: it splices the node into
    the tree at a path; section 4.1 and 7: an address whose parent does not
    resolve, or whose index is out of range, fails with InvalidPath. The
    check of section 4.2 on the block or inline category of the inserted
    node is on Elements, which have one; the source inserts Text leaves
    only. *)
Definition Transforms_insertNodes (node : Node) (at_ : Path) : M () :=
  λ editor,
    match insertAt node at_ editor with
    | Some editor' => Some ((), editor')
    | None => None
    end.

(** ** The plugin [withInlineVoid] *)

(** [zeroWidthChar], U+FEFF, in its UTF-8 bytes. *)
Definition zeroWidthChar : string :=
  String "239"%char (String "187"%char (String "191"%char EmptyString)).

(** The leaf [{ text: zeroWidthChar }]. *)
Definition zeroWidthLeaf : Node := Text zeroWidthChar ∅.

Definition isInlineVoidType (n : Node) : bool :=
  bool_decide (Node_type n = Some "inlineVoid").

Section withInlineVoid.

(** The methods of the editor being wrapped: [const { isVoid, isInline,
    normalizeNode } = editor]. *)
Variable isVoid0 : Node → bool.
Variable isInline0 : Node → bool.
Variable normalizeNode0 : NodeEntry → M ().

Definition isVoid (element : Node) : bool :=
  if isInlineVoidType element then true else isVoid0 element.

Definition isInline (element : Node) : bool :=
  if isInlineVoidType element then true else isInline0 element.

Definition normalizeNode (entry : NodeEntry) : M () :=
  let '(node, path) := entry in
  (if isInlineVoidType node then
     parentNode ← reading (λ editor, Node_parent editor path);
     let isFirstChild := negb (Path_hasPrevious path) in
     let islastChild :=
       bool_decide (Z.of_nat <$> Path_lastIndex path =
                    Some (Z.of_nat (length (Node_children parentNode)) - 1)%Z) in
     nextPath ← throwing (Path_next path);
     hasPreviousAdjacentInlineVoid ←
       (if negb isFirstChild then
          prevPath ← throwing (Path_previous path);
          prevSibling ← reading (λ editor, Node_get editor prevPath);
          mret (isInlineVoidType prevSibling)
        else mret false);
     (if islastChild
      then Transforms_insertNodes zeroWidthLeaf nextPath
      else mret ());;
     (if isFirstChild || hasPreviousAdjacentInlineVoid
      then Transforms_insertNodes zeroWidthLeaf path
      else mret ())
   else mret ());;
  normalizeNode0 entry.

End withInlineVoid.

(** ** The base editor and the normalization pass *)

(** Modelled from the spec: the base editor's [normalizeNode] is code of the
    Slate library, not of this repository. Section 4.3, rule 1: an Element
    with zero children that is not void gets a single empty Text leaf as its
    sole child. Rule 2 is the plugin's; rule 3, on list containers, is a
    proposal of the specification that the source does not have. The base
    method asks the editor for [isVoid], which the plugin has replaced. *)
Definition coreNormalizeNode (isVoid : Node → bool) (entry : NodeEntry)
    : M () :=
  let '(node, path) := entry in
  match node with
  | Element _ [] =>
      if isVoid node then mret ()
      else Transforms_insertNodes (Text "" ∅) (path ++ [0])
  | _ => mret ()
  end.

(** The [normalizeNode] of the application's editor: the plugin's method
    over the base method, which reads the [isVoid] the plugin has put on
    the editor; [isVoid0] is the [isVoid] of the editor that was wrapped. *)
Definition appNormalizeNode (isVoid0 : Node → bool) : NodeEntry → M () :=
  normalizeNode (coreNormalizeNode (isVoid isVoid0)).

(** One entry of the worklist: the path is resolved again ([Node.has],
    [Editor.node]) before [normalizeNode] runs on it. *)
Definition normalizeAt (normalizeNode : NodeEntry → M ()) (path : Path)
    : M () :=
  λ editor,
    match Node_get editor path with
    | Some node => normalizeNode (node, path) editor
    | None => Some ((), editor)
    end.

Fixpoint normalizePaths (normalizeNode : NodeEntry → M ())
    (worklist : list Path) : M () :=
  match worklist with
  | [] => mret ()
  | path :: rest =>
      normalizeAt normalizeNode path;; normalizePaths normalizeNode rest
  end.

(** Modelled from the spec: [Editor.normalize(editor, { force: true })] is
    code of the Slate library. Section 4.3: a worklist seeded with every
    entry reachable from the root, processed depth-first, each entry
    resolving its own path again before it is checked; after a repair the
    engine runs its checks again, until a fixed point. [fuel] bounds the
    number of rounds; [None] is a throw or an exhausted bound. *)
Fixpoint Editor_normalize (normalizeNode : NodeEntry → M ()) (fuel : nat)
    (editor : Node) : option Node :=
  match fuel with
  | 0 => None
  | S fuel' =>
      match exec (normalizePaths normalizeNode (Node_paths editor)) editor with
      | None => None
      | Some editor' =>
          if Node_eqb editor' editor then Some editor'
          else Editor_normalize normalizeNode fuel' editor'
      end
  end.

(** ** The initial document *)

Definition inlineVoidElement : Node := Element "inlineVoid" [Text "" ∅].

Definition initialParagraph : Node :=
  Element "paragraph"
    [ Text "Some text " ∅; inlineVoidElement;
      Text " more text " ∅; inlineVoidElement ].

Definition initialValue : Node := Root [initialParagraph; initialParagraph].

(** ** Selections *)

Record Point := mkPoint { point_path : Path; point_offset : nat }.

Record Range := mkRange { anchor : Point; focus : Point }.

(** The editor as the toolbar commands see it: its document and its
    selection. *)
Record Editor := mkEditor {
  children : list Node;
  selection : option Range
}.

Definition document (editor : Editor) : Node := Root (children editor).

(** Document order on paths: a node comes before its descendants, and
    before its later siblings and theirs. *)
Fixpoint Path_compare (p q : Path) : comparison :=
  match p, q with
  | [], [] => Eq
  | [], _ :: _ => Lt
  | _ :: _, [] => Gt
  | i :: p', j :: q' =>
      match Nat.compare i j with
      | Eq => Path_compare p' q'
      | c => c
      end
  end.

Definition Path_leb (p q : Path) : bool :=
  match Path_compare p q with Gt => false | _ => true end.

(** [Range.edges]: the two points of a selection, the earlier one first,
    whichever of them is the anchor. *)
Definition Range_edges (range : Range) : Path * Path :=
  if Path_leb (point_path (anchor range)) (point_path (focus range))
  then (point_path (anchor range), point_path (focus range))
  else (point_path (focus range), point_path (anchor range)).

(** The nodes a selection covers: those between its edges, in document
    order. *)
Definition covered (range : Range) (path : Path) : bool :=
  Path_leb (Range_edges range).1 path && Path_leb path (Range_edges range).2.

(** [ancestor] is [path] or an ancestor of it. *)
Definition Path_isAncestorOrSelf (ancestor path : Path) : bool :=
  bool_decide (ancestor `prefix_of` path).

(** ** The toolbar commands of [App.js]

    The commands call the editor library ([Editor.marks], [Editor.addMark],
    [Editor.removeMark], [Editor.nodes], [Transforms.unwrapNodes],
    [Transforms.setNodes], [Transforms.wrapNodes]); they are written here
    over any editor state and any such operations. *)

Definition LIST_TYPES : list string := ["numbered-list"; "bulleted-list"].

(** [LIST_TYPES.includes(x)], where [x] may be [undefined]. *)
Definition includes (l : list string) (x : option string) : bool :=
  match x with
  | Some s => bool_decide (s ∈ l)
  | None => false
  end.

(** [obj[key]] where [obj] may be [null]: reading a property of [null]
    throws a TypeError ([None]). *)
Definition getMember (obj : option Marks) (key : string) : option JsValue :=
  match obj with
  | Some m => Some (getProp m key)
  | None => None
  end.

Section marks.

Variable EditorState : Type.

(** [Editor.marks(editor)]: an object of marks, or [null]. *)
Variable Editor_marks : EditorState → option Marks.
Variable Editor_addMark : string → JsValue → EditorState → EditorState.
Variable Editor_removeMark : string → EditorState → EditorState.

(** [None] is a thrown exception. *)
Definition isMarkActive (editor : EditorState) (format : string)
    : option bool :=
  let marks := Editor_marks editor in
  if bool_decide (is_Some marks)
  then v ← getMember marks format; Some (strictEq v (VBool true))
  else Some false.

Definition toggleMark (editor : EditorState) (format : string)
    : option EditorState :=
  isActive ← isMarkActive editor format;
  if isActive : bool
  then Some (Editor_removeMark format editor)
  else Some (Editor_addMark format (VBool true) editor).

End marks.

Section blocks.

Variable EditorState : Type.

(** [Editor.nodes(editor, { match })]: the entries it yields, in order. *)
Variable Editor_nodes : (Node → bool) → EditorState → list NodeEntry.

(** [Transforms.unwrapNodes(editor, { match, split })]. *)
Variable Transforms_unwrapNodes : (Node → bool) → bool → EditorState → EditorState.

(** [Transforms.setNodes(editor, { type })]. *)
Variable Transforms_setNodes : string → EditorState → EditorState.

(** [Transforms.wrapNodes(editor, block)]. *)
Variable Transforms_wrapNodes : Node → EditorState → EditorState.

(** [const [match] = Editor.nodes(...); return !!match]: an entry is an
    array, which is truthy; [undefined] is not. *)
Definition isBlockActive (editor : EditorState) (format : string) : bool :=
  match Editor_nodes (λ n, bool_decide (Node_type n = Some format)) editor with
  | [] => false
  | _ :: _ => true
  end.

Definition toggleBlock (editor : EditorState) (format : string) : EditorState :=
  let isActive := isBlockActive editor format in
  let isList := includes LIST_TYPES (Some format) in
  let editor :=
    Transforms_unwrapNodes (λ n, includes LIST_TYPES (Node_type n)) true editor in
  let editor :=
    Transforms_setNodes
      (if isActive then "paragraph" else if isList then "list-item" else format)
      editor in
  if negb isActive && isList
  then Transforms_wrapNodes (Element format []) editor
  else editor.

(** The command as section 4.4 of the specification words it. *)
Definition toggleBlock_spec (editor : EditorState) (type : string)
    : EditorState :=
  let unwrapped :=
    Transforms_unwrapNodes (λ n, includes LIST_TYPES (Node_type n)) true editor in
  if isBlockActive editor type
  then Transforms_setNodes "paragraph" unwrapped
  else if bool_decide (type ∈ LIST_TYPES)
  then Transforms_wrapNodes (Element type [])
         (Transforms_setNodes "list-item" unwrapped)
  else Transforms_setNodes type unwrapped.

End blocks.

Arguments isMarkActive {EditorState} Editor_marks editor format.
Arguments toggleMark {EditorState} Editor_marks Editor_addMark
  Editor_removeMark editor format.
Arguments isBlockActive {EditorState} Editor_nodes editor format.
Arguments toggleBlock {EditorState} Editor_nodes Transforms_unwrapNodes
  Transforms_setNodes Transforms_wrapNodes editor format.
Arguments toggleBlock_spec {EditorState} Editor_nodes Transforms_unwrapNodes
  Transforms_setNodes Transforms_wrapNodes editor type.

(** ** The library's queries, from the specification *)

Definition childrenOfRoot (n : Node) : list Node :=
  match n with Root cs => cs | _ => [] end.

(** Modelled from the spec: [Editor.marks] is code of the Slate library.
    Section 4.4: the mark lookup on the leaf at the current selection
    anchor; without a selection, or without a leaf there, no marks
    ([null]). *)
Definition Editor_marks (editor : Editor) : option Marks :=
  range ← selection editor;
  match Node_get (document editor) (point_path (anchor range)) with
  | Some (Text _ marks) => Some marks
  | _ => None
  end.

(** Modelled from the spec: [Editor.nodes] is code of the Slate library.
    Section 4.4: the nodes it walks are the ancestor-or-self nodes of the
    current selection, that is every node that is, or is an ancestor of, a
    node the selection covers; it yields those that match, in document
    order, and nothing without a selection. *)
Definition onSelection (editor : Editor) (range : Range) (path : Path) : bool :=
  existsb
    (λ q, Node_has (document editor) q && covered range q &&
          Path_isAncestorOrSelf path q)
    (Node_paths (document editor)).

Definition Editor_nodes (match_ : Node → bool) (editor : Editor)
    : list NodeEntry :=
  match selection editor with
  | None => []
  | Some range =>
      omap
        (λ path,
           node ← Node_get (document editor) path;
           if onSelection editor range path && match_ node
           then Some (node, path) else None)
        (Node_paths (document editor))
  end.

(** ** The vocabulary of the claims

    What is left to repair in a tree, what a settled entry and a normalized
    tree are, what the plugin leaves under a parent, and the documents the
    claims are tried on. *)

(** The repairs the plugin owes a list of siblings: one for each
    [inlineVoid] element that is first or follows an [inlineVoid] element,
    and one for an [inlineVoid] element that is last. [afterVoid] tells
    whether the list starts after an [inlineVoid] element or at the start of
    the parent. *)
Fixpoint siblingViolations (afterVoid : bool) (cs : list Node) : nat :=
  match cs with
  | [] => 0
  | c :: rest =>
      (if isInlineVoidType c
       then (if afterVoid then 1 else 0) +
            (match rest with [] => 1 | _ :: _ => 0 end)
       else 0) + siblingViolations (isInlineVoidType c) rest
  end.

(** The repair the base editor owes a node: one for an empty element that
    is not void. *)
Definition ownViolations (isVoid : Node → bool) (n : Node) : nat :=
  match n with
  | Element _ [] => if isVoid n then 0 else 1
  | _ => 0
  end.

Definition localViolations (isVoid : Node → bool) (n : Node) : nat :=
  ownViolations isVoid n + siblingViolations true (Node_children n).

(** The repairs owed over the whole tree below [n]. *)
Fixpoint violations (isVoid : Node → bool) (n : Node) : nat :=
  localViolations isVoid n +
  match n with
  | Text _ _ => 0
  | Element _ cs | Root cs => sum_list_with (violations isVoid) cs
  end.

Definition isRootNode (n : Node) : bool :=
  match n with Root _ => true | _ => false end.

(** [hasPreviousAdjacentInlineVoid] for the child at index [i]. *)
Definition prevIsInlineVoid (siblings : list Node) (i : nat) : bool :=
  match i with
  | 0 => false
  | S j => from_option isInlineVoidType false (siblings !! j)
  end.

(** An entry the rules have nothing to do for: an [inlineVoid] element has a
    sibling before it that is not an [inlineVoid] element and a sibling
    after it; an element is not empty unless it is void. *)
Definition settledAt (isVoid : Node → bool) (root : Node) (path : Path)
    (node : Node) : Prop :=
  (isInlineVoidType node = true →
   ∃ parentPath i prev next,
     path = parentPath ++ [S i] ∧
     Node_get root (parentPath ++ [i]) = Some prev ∧
     isInlineVoidType prev = false ∧
     Node_get root (parentPath ++ [S (S i)]) = Some next) ∧
  ownViolations isVoid node = 0.

(** A normalized tree: every entry is settled. *)
Definition Normalized (isVoid : Node → bool) (root : Node) : Prop :=
  ∀ path node, Node_get root path = Some node → settledAt isVoid root path node.

(** The children of the parent after the guarded insertion behind the
    entry. *)
Definition afterRepair (siblings : list Node) (i : nat) : list Node :=
  if bool_decide (S i = length siblings) then siblings ++ [zeroWidthLeaf]
  else siblings.

(** The children of the parent after both guarded insertions. *)
Definition voidRepair (siblings : list Node) (i : nat) : list Node :=
  if bool_decide (i = 0) || prevIsInlineVoid siblings i
  then take i (afterRepair siblings i) ++
       zeroWidthLeaf :: drop i (afterRepair siblings i)
  else afterRepair siblings i.

(** A paragraph of the initial document with a marker leaf behind its last
    child. *)
Definition normalizedParagraph : Node :=
  Element "paragraph" (Node_children initialParagraph ++ [zeroWidthLeaf]).

(** A paragraph of two adjacent [inlineVoid] elements. *)
Definition adjacentVoids : Node :=
  Root [Element "paragraph" [inlineVoidElement; inlineVoidElement]].

(** A document with a leaf whose [bold] mark is the number 1, selected. *)
Definition numberMarkEditor : Editor :=
  mkEditor
    [Element "paragraph" [Text "x" {[ "bold" := VNumber 1 ]}]]
    (Some (mkRange (mkPoint [0; 0] 0) (mkPoint [0; 0] 1))).

(** The initial document with the caret in its first leaf. *)
Definition caretEditor : Editor :=
  mkEditor (childrenOfRoot initialValue)
    (Some (mkRange (mkPoint [0; 0] 2) (mkPoint [0; 0] 2))).

(** The state of a mark on a leaf, as [isMarkActive] reads it. *)
Definition markActive (marks : Marks) (format : string) : bool :=
  strictEq (getProp marks format) (VBool true).

(** *** The mark commands of the library

    [Editor.marks], [Editor.addMark] and [Editor.removeMark] are code of the
    Slate library, and [toggleMark] is written over any such operations.
    What the round trip of [toggleMark] needs of them is stated here for any
    editor state. [coveredMarks] lists the marks of the text the selection
    covers, in document order, piece by piece; a piece is a stretch of
    covered text that the commands keep apart, a single character say, since
    the commands split a leaf that the selection covers in part and the
    editor merges neighbouring leaves with equal marks. *)

Section markCommands.

Variable EditorState : Type.
Variable marksOf : EditorState → option Marks.
Variable addMark : string → JsValue → EditorState → EditorState.
Variable removeMark : string → EditorState → EditorState.
Variable coveredMarks : EditorState → list Marks.

(** The two commands take effect on [editor] (section 4.2): after [addMark]
    the lookup has the mark with the value [true] and every covered piece
    has it set; after [removeMark] the lookup has no such mark and every
    covered piece has it cleared; the covered pieces stay in their order,
    with their other marks. *)
Definition markCommandsTakeEffect (format : string) (editor : EditorState)
    : Prop :=
  (∃ marks, marksOf (addMark format (VBool true) editor) = Some marks ∧
            marks !! format = Some (VBool true)) ∧
  (∀ marks, marksOf (removeMark format editor) = Some marks →
            marks !! format = None) ∧
  coveredMarks (addMark format (VBool true) editor) =
    (λ marks, <[format := VBool true]> marks) <$> coveredMarks editor ∧
  coveredMarks (removeMark format editor) =
    (λ marks, delete format marks) <$> coveredMarks editor.

(** The claim of C6 as the specification states it: after the two toggles
    every piece of text the selection covers has the [bold] state it had. *)
Definition boldRestored (editor editor2 : EditorState) : Prop :=
  ∀ i marks,
    coveredMarks editor !! i = Some marks →
    ∃ marks2,
      coveredMarks editor2 !! i = Some marks2 ∧
      markActive marks2 "bold" = markActive marks "bold".

End markCommands.

Arguments markCommandsTakeEffect {EditorState} marksOf addMark removeMark
  coveredMarks format editor.
Arguments boldRestored {EditorState} coveredMarks editor editor2.

(** Modelled from the spec: the editor state as the library's mark calls see
    it through the selection (sections 4.2 and 4.4). Without a selection the
    lookup yields nothing and the commands do nothing. A selection that
    covers text is the list of the marks of that text, one entry for each
    covered character from the start of the range, where the lookup reads;
    the commands set and clear the mark on every covered character and on
    nothing else. Splitting a leaf at a boundary of the selection, or merging
    neighbouring leaves with equal marks, changes nothing in this view. At a
    caret, a selection that covers no text, which section 4.2 leaves open,
    the library keeps the marks for the text typed next: the lookup yields
    them and the commands change them and no leaf. *)
Inductive SelectionView :=
  | NoSelection
  | Caret (marks : Marks)
  | Covering (first : Marks) (rest : list Marks).

(** Modelled from the spec: [Editor.marks], code of the Slate library, on
    the view. Section 4.4: the marks where the selection starts, and nothing
    ([null]) without a selection. *)
Definition View_marks (view : SelectionView) : option Marks :=
  match view with
  | NoSelection => None
  | Caret marks => Some marks
  | Covering first _ => Some first
  end.

(** The marks of the view changed by [f]: those at the caret, or those of
    every covered character. *)
Definition View_map (f : Marks → Marks) (view : SelectionView)
    : SelectionView :=
  match view with
  | NoSelection => NoSelection
  | Caret marks => Caret (f marks)
  | Covering first rest => Covering (f first) (f <$> rest)
  end.

(** Modelled from the spec: [Editor.addMark], code of the Slate library, on
    the view. Section 4.2: it sets the named mark on the text the selection
    covers, and only there. *)
Definition View_addMark (name : string) (value : JsValue)
    : SelectionView → SelectionView :=
  View_map (λ marks, <[name := value]> marks).

(** Modelled from the spec: [Editor.removeMark], code of the Slate library,
    on the view. Section 4.2: it clears the named mark on the text the
    selection covers, and only there. *)
Definition View_removeMark (name : string) : SelectionView → SelectionView :=
  View_map (λ marks, delete name marks).

(** The marks of the covered text, character by character. *)
Definition View_covered (view : SelectionView) : list Marks :=
  match view with
  | Covering first rest => first :: rest
  | _ => []
  end.

(** The selection over [ab] in a paragraph of the leaves [a], bold, and
    [b], plain. *)
Definition mixedSelection : SelectionView :=
  Covering {[ "bold" := VBool true ]} [∅].

(** An editor method keeps a property of the document. *)
Definition preserves (P : Node → Prop) {A} (m : M A) : Prop :=
  ∀ editor a editor', m editor = Some (a, editor') → P editor → P editor'.

(** ** Rendering and key handling in [App.js] *)

(** What a component returns: the [children] it was given, wrapped in tags.
    [spread] tells whether the tag takes [{...attributes}]. *)
Inductive Html :=
  | Children
  | Tag (name : string) (spread : bool) (body : Html)
  | Component (name : string) (body : Html).

(** The names of the tags and components of a rendering, outermost first. *)
Fixpoint Html_tags (h : Html) : list string :=
  match h with
  | Children => []
  | Tag name _ body | Component name body => name :: Html_tags body
  end.

(** The component [Leaf]: [if (leaf.bold) children = <strong>...], and so
    on, each test being the truthiness of the property. *)
Definition Leaf (leaf : Marks) (children : Html) : Html :=
  let children :=
    if truthy (getProp leaf "bold") then Tag "strong" false children
    else children in
  let children :=
    if truthy (getProp leaf "code") then Tag "code" false children
    else children in
  let children :=
    if truthy (getProp leaf "italic") then Tag "em" false children
    else children in
  let children :=
    if truthy (getProp leaf "underline") then Tag "u" false children
    else children in
  Tag "span" true children.

(** The component [Element]: the [switch] on [element.type], which may be
    [undefined]; each [case] is a strict comparison, tried in order. *)
Definition Element_component (type : option string) (children : Html) : Html :=
  if bool_decide (type = Some "inlineVoid") then Component "InlineVoid" children
  else if bool_decide (type = Some "block-quote") then Tag "blockquote" true children
  else if bool_decide (type = Some "bulleted-list") then Tag "ul" true children
  else if bool_decide (type = Some "heading-one") then Tag "h1" true children
  else if bool_decide (type = Some "heading-two") then Tag "h2" true children
  else if bool_decide (type = Some "list-item") then Tag "li" true children
  else if bool_decide (type = Some "numbered-list") then Tag "ol" true children
  else Tag "p" true children.

(** [HOTKEYS], its properties in the order they are written, which is the
    order [for ... in] visits them. *)
Definition HOTKEYS : list (string * string) :=
  [ ("mod+b", "bold"); ("mod+i", "italic");
    ("mod+u", "underline"); ("mod+`", "code") ].

Section onKeyDown.

Variable EditorState : Type.
Variable Event : Type.

(** [isHotkey(hotkey, event)], of the is-hotkey library. *)
Variable isHotkey : string → Event → bool.

(** [toggleMark(editor, mark)] on this editor; [None] is a throw. *)
Variable toggle : EditorState → string → option EditorState.

(** The loop of the [onKeyDown] handler over the hotkeys still to visit:
    [hotkey] is the property name and [mark] is [HOTKEYS[hotkey]]. The state
    is whether [event.preventDefault()] was called, and the editor. *)
Fixpoint onKeyDown_loop (hotkeys : list (string * string)) (event : Event)
    (prevented : bool) (editor : EditorState) : option (bool * EditorState) :=
  match hotkeys with
  | [] => Some (prevented, editor)
  | (hotkey, mark) :: rest =>
      if isHotkey hotkey event
      then editor' ← toggle editor mark;
           onKeyDown_loop rest event true editor'
      else onKeyDown_loop rest event prevented editor
  end.

Definition onKeyDown (event : Event) (editor : EditorState)
    : option (bool * EditorState) :=
  onKeyDown_loop HOTKEYS event false editor.

End onKeyDown.

Arguments onKeyDown_loop {EditorState Event} isHotkey toggle hotkeys event
  prevented editor.
Arguments onKeyDown {EditorState Event} isHotkey toggle event editor.

(** ** The vocabulary of the further properties *)

(** The tags [Leaf] renders the four marks with. *)
Definition markTags : list (string * string) :=
  [ ("bold", "strong"); ("code", "code"); ("italic", "em");
    ("underline", "u") ].

(** The document written out in document order: a token for each leaf, and
    an opening and a closing token for each element and for the root. *)
Inductive Token :=
  | TokText (text : string) (marks : Marks)
  | TokOpen (type : option string)
  | TokClose.

Global Instance Token_eq_dec : EqDecision Token.
Proof. solve_decision. Defined.

Fixpoint Node_tokens (n : Node) : list Token :=
  match n with
  | Text text marks => [TokText text marks]
  | Element type cs =>
      TokOpen (Some type) :: concat (map Node_tokens cs) ++ [TokClose]
  | Root cs => TokOpen None :: concat (map Node_tokens cs) ++ [TokClose]
  end.

(** The document without its marker leaves. *)
Definition contentTokens (n : Node) : list Token :=
  filter (λ t, t ≠ TokText zeroWidthChar ∅) (Node_tokens n).

(** A path whose parent resolves to an Element or the root and whose last
    index is at most the number of that parent's children. *)
Definition addressable (editor : Node) (path : Path) : Prop :=
  ∃ parentPath i parent,
    path = parentPath ++ [i] ∧
    Node_get editor parentPath = Some parent ∧ isText parent = false ∧
    i ≤ length (Node_children parent).

(** A base method that does nothing. *)
Definition idleNormalizeNode : NodeEntry → M () := λ _, mret ().

(** ** Structural equality decides equality *)

Lemma Node_eqb_eq (x y : Node) : Node_eqb x y = true ↔ x = y.
Proof.
  revert y. induction x as [s m|ty cs IH|cs IH] using Node_ind;
    intros [s' m'|ty' cs'|cs']; simpl; try (split; [discriminate|congruence]).
  - rewrite andb_true_iff, !bool_decide_eq_true.
    split; [intros [-> ->]; reflexivity|intros [= -> ->]; done].
  - rewrite andb_true_iff, bool_decide_eq_true.
    enough (Hl : ∀ k, (fix go (l k : list Node) : bool :=
         match l, k with
         | [], [] => true
         | a :: l', b :: k' => Node_eqb a b && go l' k'
         | _, _ => false
         end) cs k = true ↔ cs = k).
    { rewrite Hl. split; [intros [-> ->]; reflexivity|]. intros [= -> ->]. done. }
    induction IH as [|a l Ha _ IHl]; intros [|b k];
      try (split; [discriminate|congruence]); [done|].
    rewrite andb_true_iff, Ha, IHl. split; [intros [-> ->]|intros [= -> ->]]; done.
  - enough (Hl : ∀ k, (fix go (l k : list Node) : bool :=
         match l, k with
         | [], [] => true
         | a :: l', b :: k' => Node_eqb a b && go l' k'
         | _, _ => false
         end) cs k = true ↔ cs = k).
    { rewrite Hl. split; [intros ->; reflexivity|]. intros [= ->]. done. }
    induction IH as [|a l Ha _ IHl]; intros [|b k];
      try (split; [discriminate|congruence]); [done|].
    rewrite andb_true_iff, Ha, IHl. split; [intros [-> ->]|intros [= -> ->]]; done.
Qed.

Lemma Node_eqb_refl (x : Node) : Node_eqb x x = true.
Proof. by apply Node_eqb_eq. Qed.

(** ** Paths and addressing *)

Lemma Path_lastIndex_snoc (parentPath : Path) (i : nat) :
  Path_lastIndex (parentPath ++ [i]) = Some i.
Proof. unfold Path_lastIndex. apply last_snoc. Qed.

Lemma Path_init_snoc (parentPath : Path) (i : nat) :
  Path_init (parentPath ++ [i]) = parentPath.
Proof.
  unfold Path_init. rewrite length_app. simpl.
  replace (length parentPath + 1 - 1) with (length parentPath) by lia.
  by rewrite take_app_length.
Qed.

Lemma Path_snoc_inv (path : Path) :
  path ≠ [] → ∃ parentPath i, path = parentPath ++ [i].
Proof.
  destruct path as [|j path] using rev_ind; [done|]. intros _. eauto.
Qed.

Lemma Path_parent_snoc (parentPath : Path) (i : nat) :
  Path_parent (parentPath ++ [i]) = Some parentPath.
Proof.
  unfold Path_parent. rewrite Path_init_snoc.
  by destruct parentPath.
Qed.

Lemma Path_next_snoc (parentPath : Path) (i : nat) :
  Path_next (parentPath ++ [i]) = Some (parentPath ++ [i + 1]).
Proof.
  unfold Path_next. by rewrite Path_lastIndex_snoc, Path_init_snoc.
Qed.

Lemma Path_hasPrevious_snoc (parentPath : Path) (i : nat) :
  Path_hasPrevious (parentPath ++ [i]) = bool_decide (0 < i).
Proof. unfold Path_hasPrevious. by rewrite Path_lastIndex_snoc. Qed.

Lemma Path_previous_snoc (parentPath : Path) (i : nat) :
  Path_previous (parentPath ++ [S i]) = Some (parentPath ++ [i]).
Proof.
  unfold Path_previous. rewrite Path_lastIndex_snoc, Path_init_snoc.
  rewrite bool_decide_true by lia. do 3 f_equal. lia.
Qed.

Lemma Node_get_app (root : Node) (p q : Path) :
  Node_get root (p ++ q) = Node_get root p ≫= λ n, Node_get n q.
Proof.
  revert root. induction p as [|i p IH]; intros root; simpl; [done|].
  destruct root as [s m|ty cs|cs]; simpl; [done| |];
    (destruct (cs !! i) as [c|]; [apply IH|done]).
Qed.

Lemma Node_get_child (n : Node) (i : nat) :
  Node_get n [i] = if isText n then None else Node_children n !! i.
Proof.
  destruct n as [s m|ty cs|cs]; simpl; [done| |]; by destruct (cs !! i).
Qed.

Lemma Node_get_snoc (root : Node) (parentPath : Path) (i : nat) (n : Node) :
  Node_get root (parentPath ++ [i]) = Some n ↔
  ∃ parent, Node_get root parentPath = Some parent ∧ isText parent = false ∧
            Node_children parent !! i = Some n.
Proof.
  rewrite Node_get_app. split.
  - destruct (Node_get root parentPath) as [parent|]; [|done].
    cbn [mbind option_bind]. rewrite Node_get_child.
    destruct (isText parent) eqn:Ht; [done|]. eauto.
  - intros (parent & -> & Ht & Hi). cbn [mbind option_bind].
    by rewrite Node_get_child, Ht.
Qed.

Lemma Node_parent_snoc (root : Node) (parentPath : Path) (i : nat) (parent : Node) :
  Node_get root parentPath = Some parent → isText parent = false →
  Node_parent root (parentPath ++ [i]) = Some parent.
Proof.
  intros Hp Ht. unfold Node_parent. rewrite Path_parent_snoc. simpl.
  rewrite Hp. simpl. by rewrite Ht.
Qed.

(** [Node.nodes] lists every path that resolves. *)
Lemma Node_paths_complete (root : Node) (path : Path) (n : Node) :
  Node_get root path = Some n → path ∈ Node_paths root.
Proof.
  revert root. induction path as [|i path IH]; intros root Hget.
  - destruct root; left.
  - assert (Hgo : ∀ (cs : list Node) (k j : nat) (c : Node),
      cs !! j = Some c → Node_get c path = Some n →
      (k + j) :: path ∈
        (fix go (i : nat) (cs : list Node) : list Path :=
           match cs with
           | [] => []
           | c :: cs' => map (cons i) (Node_paths c) ++ go (S i) cs'
           end) k cs).
    { induction cs as [|a cs IHcs]; intros k j c Hj Hc; [done|].
      destruct j as [|j]; simpl in Hj.
      - injection Hj as ->. apply elem_of_app. left.
        replace (k + 0) with k by lia.
        apply (list_elem_of_fmap_2 (cons k)). by apply IH.
      - apply elem_of_app. right.
        replace (k + S j) with (S k + j) by lia. by eapply IHcs. }
    destruct root as [s m|ty cs|cs]; simpl in Hget; [done| |];
      destruct (cs !! i) as [c|] eqn:Hi; try done;
      simpl; right; by apply (Hgo cs 0 i c).
Qed.

(** ** What is left to repair

    The rules of the pass repair three things: an [inlineVoid] element that
    is a first child or follows another [inlineVoid] element, an
    [inlineVoid] element that is a last child, and an empty element that is
    not void. [violations] counts them over the whole tree; every repair
    removes one. *)

Lemma violations_unfold (isVoid : Node → bool) (n : Node) :
  violations isVoid n =
  localViolations isVoid n + sum_list_with (violations isVoid) (Node_children n).
Proof. by destruct n. Qed.

Lemma violations_Text (isVoid : Node → bool) (s : string) (m : Marks) :
  violations isVoid (Text s m) = 0.
Proof. reflexivity. Qed.

Lemma sum_list_with_replace {A} (f : A → nat) (l : list A) (i : nat) (x y : A) :
  l !! i = Some x →
  sum_list_with f (<[i := y]> l) + f x = sum_list_with f l + f y.
Proof.
  revert i. induction l as [|a l IH]; intros [|i] Hi; simpl in *; try done.
  - injection Hi as ->. lia.
  - specialize (IH i Hi). lia.
Qed.

Lemma sum_list_with_splice {A} (f : A → nat) (l : list A) (i : nat) (x : A) :
  sum_list_with f (take i l ++ x :: drop i l) = f x + sum_list_with f l.
Proof.
  rewrite <- (take_drop i l) at 3. rewrite !sum_list_with_app. simpl. lia.
Qed.

(** Only the [inlineVoid] tags of the siblings count. *)
Lemma siblingViolations_replace (afterVoid : bool) (cs : list Node) (i : nat)
    (c c' : Node) :
  cs !! i = Some c → isInlineVoidType c' = isInlineVoidType c →
  siblingViolations afterVoid (<[i := c']> cs) = siblingViolations afterVoid cs.
Proof.
  revert afterVoid i. induction cs as [|a cs IH]; intros afterVoid [|i] Hi Hty;
    simpl in *; try done.
  - injection Hi as ->. rewrite Hty. done.
  - rewrite (IH _ _ Hi Hty). by destruct cs, i.
Qed.

(** A leaf put in front of an [inlineVoid] element that is a first child or
    follows an [inlineVoid] element repairs one violation. *)
Lemma siblingViolations_insert_before (afterVoid : bool) (cs : list Node)
    (i : nat) (v leaf : Node) :
  cs !! i = Some v → isInlineVoidType v = true →
  isInlineVoidType leaf = false →
  (i = 0 → afterVoid = true) →
  (∀ j, i = S j → ∃ prev, cs !! j = Some prev ∧ isInlineVoidType prev = true) →
  siblingViolations afterVoid (take i cs ++ leaf :: drop i cs) + 1 =
  siblingViolations afterVoid cs.
Proof.
  revert afterVoid i. induction cs as [|a cs IH]; intros afterVoid i Hi Hv Hleaf H0 HS;
    [done|].
  destruct i as [|i]; simpl in Hi.
  - injection Hi as ->. rewrite (H0 eq_refl). simpl. rewrite Hleaf, Hv. simpl. lia.
  - simpl. rewrite <- (IH (isInlineVoidType a) i Hi Hv Hleaf).
    + destruct cs as [|b cs]; [done|].
      destruct (take i (b :: cs) ++ leaf :: drop i (b :: cs)) eqn:E.
      * by destruct (take i (b :: cs)).
      * lia.
    + intros ->. destruct (HS 0 eq_refl) as (prev & [= <-] & Hprev). done.
    + intros j ->. destruct (HS (S j) eq_refl) as (prev & Hj & Hprev). eauto.
Qed.

(** A leaf put behind an [inlineVoid] element that is a last child repairs
    one violation. *)
Lemma siblingViolations_insert_after (afterVoid : bool) (cs : list Node)
    (i : nat) (v leaf : Node) :
  cs !! i = Some v → isInlineVoidType v = true →
  isInlineVoidType leaf = false →
  S i = length cs →
  siblingViolations afterVoid (cs ++ [leaf]) + 1 = siblingViolations afterVoid cs.
Proof.
  revert afterVoid i. induction cs as [|a cs IH]; intros afterVoid i Hi Hv Hleaf Hlen;
    [done|].
  destruct i as [|i]; simpl in Hi, Hlen.
  - injection Hi as ->. destruct cs; [|done]. simpl. rewrite Hv, Hleaf. lia.
  - simpl. rewrite <- (IH (isInlineVoidType a) i Hi Hv Hleaf) by lia.
    destruct cs as [|b cs]; [done|]. simpl. lia.
Qed.

(** ** The insert transform on the tree *)

Lemma Node_children_withChildren (n : Node) (cs : list Node) :
  isText n = false → Node_children (Node_withChildren n cs) = cs.
Proof. by destruct n. Qed.

Lemma Node_withChildren_shape (n : Node) (cs : list Node) :
  Node_type (Node_withChildren n cs) = Node_type n ∧
  isRootNode (Node_withChildren n cs) = isRootNode n ∧
  isText (Node_withChildren n cs) = isText n.
Proof. by destruct n. Qed.

Lemma ownViolations_nonempty (isVoid : Node → bool) (n : Node) :
  Node_children n ≠ [] → ownViolations isVoid n = 0.
Proof. by destruct n as [s m|ty [|c cs]|cs]. Qed.

Lemma insertAt_cons (node : Node) (i : nat) (rest : Path) (root : Node) :
  rest ≠ [] →
  insertAt node (i :: rest) root =
  if isText root then None else
    child ← Node_children root !! i;
    child' ← insertAt node rest child;
    Some (Node_withChildren root (<[i := child']> (Node_children root))).
Proof. by destruct rest. Qed.

(** Inserting a node that needs no repair under the parent at [parentPath]
    changes the count of violations by what changes at that parent. *)
Lemma insertAt_spec (isVoid : Node → bool) (node : Node) (parentPath : Path)
    (i : nat) (root parent : Node) :
  violations isVoid node = 0 →
  Node_get root parentPath = Some parent → isText parent = false →
  i ≤ length (Node_children parent) →
  let parent' := Node_withChildren parent
    (take i (Node_children parent) ++ node :: drop i (Node_children parent)) in
  ∃ root',
    insertAt node (parentPath ++ [i]) root = Some root' ∧
    Node_get root' parentPath = Some parent' ∧
    violations isVoid root' + localViolations isVoid parent =
      violations isVoid root + localViolations isVoid parent' ∧
    Node_type root' = Node_type root ∧
    isRootNode root' = isRootNode root ∧
    isText root' = isText root.
Proof.
  intros Hnode Hget Htext Hi parent'. subst parent'.
  revert root Hget. induction parentPath as [|j pp IH]; intros root Hget.
  - simpl in Hget. injection Hget as ->. simpl. rewrite Htext.
    rewrite bool_decide_true by done. eexists. split; [done|].
    split; [done|]. split; [|by destruct parent].
    rewrite !violations_unfold, Node_children_withChildren by done.
    rewrite sum_list_with_splice, Hnode. lia.
  - assert (Hroot : isText root = false) by (by destruct root).
    assert (∃ c, Node_children root !! j = Some c ∧ Node_get c pp = Some parent)
      as (c & Hj & Hc).
    { destruct root as [s m|ty cs|cs]; simpl in *; [done| |];
        destruct (cs !! j) as [c|]; try done; eauto. }
    destruct (IH c Hc) as (c' & Hins & Hget' & Hviol & Hty & _ & _).
    change ((j :: pp) ++ [i]) with (j :: (pp ++ [i])).
    rewrite insertAt_cons by (by destruct pp).
    rewrite Hroot, Hj. cbn [mbind option_bind]. rewrite Hins.
    cbn [mbind option_bind]. eexists. split; [done|].
    assert (Hlt : j < length (Node_children root)) by (by eapply lookup_lt_Some).
    split.
    { destruct root as [s m|ty cs|cs]; simpl in *; [done| |];
        by rewrite list_lookup_insert_eq. }
    split; [|by destruct root].
    rewrite (violations_unfold _ (Node_withChildren _ _)), (violations_unfold _ root).
    rewrite Node_children_withChildren by done.
    unfold localViolations at 1 3.
    rewrite Node_children_withChildren by done.
    rewrite (siblingViolations_replace _ _ _ c c') by
      (done || (unfold isInlineVoidType; by rewrite Hty)).
    rewrite !ownViolations_nonempty.
    + pose proof (sum_list_with_replace (violations isVoid) _ j c c' Hj). lia.
    + intros E. by rewrite E in Hj.
    + rewrite Node_children_withChildren by done.
      intros E. apply (f_equal length) in E. rewrite length_insert in E.
      simpl in E. lia.
Qed.

(** ** One entry of the plugin's [normalizeNode] *)

(** On an [inlineVoid] entry whose path resolves, the method comes down to
    its two guarded insertions followed by the base method. *)
Lemma normalizeNode_inlineVoid (normalizeNode0 : NodeEntry → M ())
    (root parent node : Node) (parentPath : Path) (i : nat) :
  isInlineVoidType node = true →
  Node_get root parentPath = Some parent → isText parent = false →
  Node_children parent !! i = Some node →
  normalizeNode normalizeNode0 (node, parentPath ++ [i]) root =
  (((if bool_decide (S i = length (Node_children parent))
     then Transforms_insertNodes zeroWidthLeaf (parentPath ++ [i + 1])
     else mret ());;
    (if bool_decide (i = 0) || prevIsInlineVoid (Node_children parent) i
     then Transforms_insertNodes zeroWidthLeaf (parentPath ++ [i])
     else mret ()));;
   normalizeNode0 (node, parentPath ++ [i])) root.
Proof.
  intros Hv Hparent Htext Hi.
  unfold normalizeNode. rewrite Hv.
  cbv [mbind M_bind mret M_ret reading throwing].
  rewrite (Node_parent_snoc _ _ _ _ Hparent Htext).
  rewrite Path_next_snoc, Path_hasPrevious_snoc, Path_lastIndex_snoc.
  rewrite (bool_decide_ext
    (Z.of_nat <$> Some i = Some (Z.of_nat (length (Node_children parent)) - 1)%Z)
    (S i = length (Node_children parent))).
  2:{ cbn. split; [intros E; injection E; lia|intros E; f_equal; lia]. }
  destruct i as [|j].
  - rewrite (bool_decide_false (0 < 0)) by lia.
    rewrite (bool_decide_true (0 = 0)) by done. reflexivity.
  - rewrite (bool_decide_true (0 < S j)) by lia. simpl negb.
    rewrite Path_previous_snoc. cbn [negb]. cbv beta iota.
    destruct (Node_children parent !! j) as [prev|] eqn:Hj.
    2:{ apply lookup_lt_Some in Hi. apply lookup_ge_None in Hj. lia. }
    assert (Node_get root (parentPath ++ [j]) = Some prev) as ->.
    { apply Node_get_snoc. eauto. }
    rewrite (bool_decide_false (S j = 0)) by lia.
    unfold prevIsInlineVoid. rewrite Hj. reflexivity.
Qed.

(** ** Settled entries and normalized trees *)

Lemma violations_zeroWidthLeaf (isVoid : Node → bool) :
  violations isVoid zeroWidthLeaf = 0.
Proof. reflexivity. Qed.

Lemma insert_after_step (isVoid : Node → bool) (root parent node : Node)
    (parentPath : Path) (i : nat) :
  Node_get root parentPath = Some parent → isText parent = false →
  Node_children parent !! i = Some node → isInlineVoidType node = true →
  S i = length (Node_children parent) →
  ∃ root',
    Transforms_insertNodes zeroWidthLeaf (parentPath ++ [i + 1]) root
      = Some ((), root') ∧
    Node_get root' parentPath =
      Some (Node_withChildren parent (Node_children parent ++ [zeroWidthLeaf])) ∧
    violations isVoid root' + 1 = violations isVoid root ∧
    isRootNode root' = isRootNode root.
Proof.
  intros Hparent Htext Hi Hv Hlen.
  destruct (insertAt_spec isVoid zeroWidthLeaf parentPath (i + 1) root parent)
    as (root' & Hins & Hget & Hviol & _ & Hroot & _); try done; [lia|].
  rewrite take_ge, drop_ge in Hget, Hviol by lia.
  exists root'. unfold Transforms_insertNodes. rewrite Hins.
  repeat split; try done.
  unfold localViolations in Hviol.
  rewrite Node_children_withChildren in Hviol by done.
  rewrite !ownViolations_nonempty in Hviol.
  - pose proof (siblingViolations_insert_after true _ i node zeroWidthLeaf
      Hi Hv eq_refl Hlen). lia.
  - rewrite Node_children_withChildren by done. by destruct (Node_children parent).
  - intros E. by rewrite E in Hi.
Qed.

Lemma insert_before_step (isVoid : Node → bool) (root parent node : Node)
    (parentPath : Path) (i : nat) :
  Node_get root parentPath = Some parent → isText parent = false →
  Node_children parent !! i = Some node → isInlineVoidType node = true →
  bool_decide (i = 0) || prevIsInlineVoid (Node_children parent) i = true →
  ∃ root',
    Transforms_insertNodes zeroWidthLeaf (parentPath ++ [i]) root
      = Some ((), root') ∧
    Node_get root' parentPath =
      Some (Node_withChildren parent
              (take i (Node_children parent) ++
               zeroWidthLeaf :: drop i (Node_children parent))) ∧
    violations isVoid root' + 1 = violations isVoid root ∧
    isRootNode root' = isRootNode root.
Proof.
  intros Hparent Htext Hi Hv Hcond.
  assert (Hlt : i < length (Node_children parent)) by (by eapply lookup_lt_Some).
  destruct (insertAt_spec isVoid zeroWidthLeaf parentPath i root parent)
    as (root' & Hins & Hget & Hviol & _ & Hroot & _); try done; [lia|].
  exists root'. unfold Transforms_insertNodes. rewrite Hins.
  repeat split; try done.
  unfold localViolations in Hviol.
  rewrite Node_children_withChildren in Hviol by done.
  rewrite !ownViolations_nonempty in Hviol.
  - pose proof (siblingViolations_insert_before true _ i node zeroWidthLeaf
      Hi Hv eq_refl) as Hsib.
    rewrite <- Hsib in Hviol; [lia|done|].
    intros j ->. rewrite bool_decide_false in Hcond by lia. simpl in Hcond.
    destruct (Node_children parent !! j) as [prev|]; [eauto|done].
  - rewrite Node_children_withChildren by done.
    by destruct (take i (Node_children parent)).
  - intros E. by rewrite E in Hi.
Qed.

Lemma coreNormalizeNode_void (isVoid : Node → bool) (node : Node) (path : Path)
    (editor : Node) :
  isVoid node = true →
  coreNormalizeNode isVoid (node, path) editor = Some ((), editor).
Proof.
  intros H. unfold coreNormalizeNode.
  destruct node as [s m|ty [|c cs]|cs]; try done. by rewrite H.
Qed.

Lemma isVoid_inlineVoid (isVoid0 : Node → bool) (node : Node) :
  isInlineVoidType node = true → isVoid isVoid0 node = true.
Proof. intros H. unfold isVoid. by rewrite H. Qed.

Lemma ownViolations_void (isVoid : Node → bool) (node : Node) :
  isVoid node = true → ownViolations isVoid node = 0.
Proof.
  intros H. destruct node as [s m|ty [|c cs]|cs]; try done.
  simpl. by rewrite H.
Qed.

(** One entry of the application's [normalizeNode], on a document: it
    returns, and either changes nothing, the entry being settled, or repairs
    at least one violation. *)
Lemma appNormalizeNode_step (isVoid0 : Node → bool) (root node : Node)
    (path : Path) :
  isRootNode root = true → Node_get root path = Some node →
  ∃ root',
    appNormalizeNode isVoid0 (node, path) root = Some ((), root') ∧
    isRootNode root' = true ∧
    ((root' = root ∧ settledAt (isVoid isVoid0) root path node) ∨
     violations (isVoid isVoid0) root' < violations (isVoid isVoid0) root).
Proof.
  intros Hroot Hget. destruct (isInlineVoidType node) eqn:Hv.
  - assert (path ≠ []) as Hne.
    { intros ->. simpl in Hget. injection Hget as ->. by destruct node. }
    destruct (Path_snoc_inv path Hne) as (pp & i & ->).
    apply Node_get_snoc in Hget as (parent & Hparent & Htext & Hi).
    assert (Hlt : i < length (Node_children parent)) by (by eapply lookup_lt_Some).
    unfold appNormalizeNode.
    rewrite (normalizeNode_inlineVoid _ root parent node pp i) by done.
    cbv [mbind M_bind mret M_ret].
    pose proof (isVoid_inlineVoid isVoid0 node Hv) as Hvoid.
    destruct (bool_decide (S i = length (Node_children parent))) eqn:Hlast.
    + apply bool_decide_eq_true in Hlast.
      destruct (insert_after_step (isVoid isVoid0) root parent node pp i)
        as (root1 & -> & Hget1 & Hviol1 & Hroot1); try done.
      destruct (bool_decide (i = 0) || prevIsInlineVoid (Node_children parent) i)
        eqn:Hcond.
      * destruct (insert_before_step (isVoid isVoid0) root1
          (Node_withChildren parent (Node_children parent ++ [zeroWidthLeaf]))
          node pp i) as (root2 & -> & Hget2 & Hviol2 & Hroot2); try done.
        { by destruct parent. }
        { rewrite Node_children_withChildren by done. by rewrite lookup_app_l. }
        { rewrite Node_children_withChildren by done.
          destruct i as [|j]; [done|]. simpl in *.
          rewrite lookup_app_l by lia. done. }
        rewrite coreNormalizeNode_void by done.
        eexists. split; [done|]. split; [congruence|]. right. lia.
      * rewrite coreNormalizeNode_void by done.
        eexists. split; [done|]. split; [congruence|]. right. lia.
    + apply bool_decide_eq_false in Hlast.
      destruct (bool_decide (i = 0) || prevIsInlineVoid (Node_children parent) i)
        eqn:Hcond.
      * destruct (insert_before_step (isVoid isVoid0) root parent node pp i)
          as (root2 & -> & Hget2 & Hviol2 & Hroot2); try done.
        rewrite coreNormalizeNode_void by done.
        eexists. split; [done|]. split; [congruence|]. right. lia.
      * rewrite coreNormalizeNode_void by done.
        eexists. split; [done|]. split; [done|]. left. split; [done|].
        split; [|by apply ownViolations_void].
        intros _. apply orb_false_iff in Hcond as [Hi0 Hprev].
        apply bool_decide_eq_false in Hi0.
        destruct i as [|j]; [done|]. simpl in Hprev.
        destruct (Node_children parent !! j) as [prev|] eqn:Hj.
        2:{ apply lookup_ge_None in Hj. lia. }
        destruct (lookup_lt_is_Some_2 (Node_children parent) (S (S j)))
          as [next Hnext]; [lia|].
        exists pp, j, prev, next. split; [done|].
        split; [apply Node_get_snoc; eauto|]. split; [done|].
        apply Node_get_snoc; eauto.
  - unfold appNormalizeNode, normalizeNode. rewrite Hv.
    cbv [mbind M_bind mret M_ret].
    assert (Hquiet : ownViolations (isVoid isVoid0) node = 0 →
      settledAt (isVoid isVoid0) root path node).
    { intros H. split; [by rewrite Hv|done]. }
    destruct node as [s m|ty [|c cs]|cs];
      try (eexists; split; [done|]; split; [done|]; left; split; [done|];
           by apply Hquiet).
    unfold coreNormalizeNode.
    destruct (isVoid isVoid0 (Element ty [])) eqn:Hvoid.
    + eexists. split; [done|]. split; [done|]. left. split; [done|].
      apply Hquiet. by apply ownViolations_void.
    + destruct (insertAt_spec (isVoid isVoid0) (Text "" ∅) path 0 root
        (Element ty [])) as (root' & Hins & _ & Hviol & _ & Hroot' & _);
        try done.
      unfold Transforms_insertNodes. rewrite Hins.
      eexists. split; [done|]. split; [congruence|]. right.
      unfold localViolations in Hviol. simpl in Hviol.
      rewrite Hvoid in Hviol. lia.
Qed.

(** A settled entry is left alone. *)
Lemma appNormalizeNode_settled (isVoid0 : Node → bool) (root node : Node)
    (path : Path) :
  Node_get root path = Some node →
  settledAt (isVoid isVoid0) root path node →
  appNormalizeNode isVoid0 (node, path) root = Some ((), root).
Proof.
  intros Hget [Hadj Hown]. destruct (isInlineVoidType node) eqn:Hv.
  - destruct (Hadj eq_refl) as (pp & i & prev & next & -> & Hprev & Hpv & Hnext).
    apply Node_get_snoc in Hget as (parent & Hparent & Htext & Hi).
    apply Node_get_snoc in Hprev as (parent1 & Hparent1 & _ & Hprev).
    apply Node_get_snoc in Hnext as (parent2 & Hparent2 & _ & Hnext).
    assert (parent1 = parent) as -> by congruence.
    assert (parent2 = parent) as -> by congruence.
    unfold appNormalizeNode.
    rewrite (normalizeNode_inlineVoid _ root parent node pp (S i)) by done.
    apply lookup_lt_Some in Hnext.
    rewrite (bool_decide_false (S (S i) = _)) by lia.
    rewrite (bool_decide_false (S i = 0)) by lia.
    unfold prevIsInlineVoid. rewrite Hprev. simpl. rewrite Hpv.
    cbv [mbind M_bind mret M_ret].
    apply coreNormalizeNode_void. by apply isVoid_inlineVoid.
  - unfold appNormalizeNode, normalizeNode. rewrite Hv.
    cbv [mbind M_bind mret M_ret]. unfold coreNormalizeNode.
    destruct node as [s m|ty [|c cs]|cs]; try done.
    simpl in Hown. by destruct (isVoid isVoid0 (Element ty [])).
Qed.

(** One round over a worklist: it returns, and either changes nothing, every
    listed entry being settled, or repairs at least one violation. *)
Lemma normalizePaths_step (isVoid0 : Node → bool) (worklist : list Path)
    (root : Node) :
  isRootNode root = true →
  ∃ root',
    normalizePaths (appNormalizeNode isVoid0) worklist root = Some ((), root') ∧
    isRootNode root' = true ∧
    ((root' = root ∧
      ∀ path node, path ∈ worklist → Node_get root path = Some node →
                   settledAt (isVoid isVoid0) root path node) ∨
     violations (isVoid isVoid0) root' < violations (isVoid isVoid0) root).
Proof.
  revert root. induction worklist as [|path rest IH]; intros root Hroot.
  - exists root. split; [done|]. split; [done|]. left. split; [done|].
    intros path node Hin. by apply elem_of_nil in Hin.
  - simpl. cbv [mbind M_bind]. unfold normalizeAt.
    destruct (Node_get root path) as [node|] eqn:Hget.
    + destruct (appNormalizeNode_step isVoid0 root node path Hroot Hget)
        as (root1 & -> & Hroot1 & Hstep).
      destruct (IH root1 Hroot1) as (root' & -> & Hroot' & Hrest).
      exists root'. split; [done|]. split; [done|].
      destruct Hstep as [[-> Hsettled]|Hlt1], Hrest as [[-> Hall]|Hlt2].
      * left. split; [done|]. intros path' node' Hin Hget'.
        apply elem_of_cons in Hin as [->|Hin]; [|by eapply Hall].
        by replace node' with node by congruence.
      * by right.
      * by right.
      * right. lia.
    + destruct (IH root Hroot) as (root' & -> & Hroot' & Hrest).
      exists root'. split; [done|]. split; [done|].
      destruct Hrest as [[-> Hall]|Hlt]; [|by right].
      left. split; [done|]. intros path' node' Hin Hget'.
      apply elem_of_cons in Hin as [->|Hin]; [congruence|by eapply Hall].
Qed.

Lemma normalizePaths_Normalized (isVoid0 : Node → bool) (worklist : list Path)
    (root : Node) :
  Normalized (isVoid isVoid0) root →
  normalizePaths (appNormalizeNode isVoid0) worklist root = Some ((), root).
Proof.
  intros Hnorm. induction worklist as [|path rest IH]; [done|].
  simpl. cbv [mbind M_bind]. unfold normalizeAt.
  destruct (Node_get root path) as [node|] eqn:Hget; [|done].
  rewrite (appNormalizeNode_settled isVoid0 root node path Hget) by (by apply Hnorm).
  done.
Qed.

(** The pass returns only trees that are normalized. *)
Lemma Editor_normalize_Normalized (isVoid0 : Node → bool) (fuel : nat)
    (root root' : Node) :
  isRootNode root = true →
  Editor_normalize (appNormalizeNode isVoid0) fuel root = Some root' →
  isRootNode root' = true ∧ Normalized (isVoid isVoid0) root'.
Proof.
  revert root. induction fuel as [|fuel IH]; intros root Hroot Hrun; [done|].
  simpl in Hrun. unfold exec in Hrun.
  destruct (normalizePaths_step isVoid0 (Node_paths root) root Hroot)
    as (root1 & Hsweep & Hroot1 & Hstep).
  rewrite Hsweep in Hrun. simpl in Hrun.
  destruct (Node_eqb root1 root) eqn:Heq.
  - injection Hrun as <-. split; [done|].
    apply Node_eqb_eq in Heq. subst root1.
    destruct Hstep as [[_ Hall]|Hlt]; [|lia].
    intros path node Hget. apply Hall; [|done].
    by eapply Node_paths_complete.
  - by eapply IH.
Qed.

(** The pass returns once its bound exceeds the number of violations. *)
Lemma Editor_normalize_returns (isVoid0 : Node → bool) (fuel : nat)
    (root : Node) :
  isRootNode root = true →
  violations (isVoid isVoid0) root < fuel →
  is_Some (Editor_normalize (appNormalizeNode isVoid0) fuel root).
Proof.
  revert root. induction fuel as [|fuel IH]; intros root Hroot Hfuel; [lia|].
  simpl. unfold exec.
  destruct (normalizePaths_step isVoid0 (Node_paths root) root Hroot)
    as (root1 & -> & Hroot1 & Hstep). simpl.
  destruct (Node_eqb root1 root) eqn:Heq; [done|].
  apply IH; [done|]. destruct Hstep as [[-> _]|Hlt]; [|lia].
  by rewrite Node_eqb_refl in Heq.
Qed.

(** On a normalized tree the pass changes nothing. *)
Lemma Editor_normalize_fixed (isVoid0 : Node → bool) (fuel : nat) (root : Node) :
  Normalized (isVoid isVoid0) root →
  Editor_normalize (appNormalizeNode isVoid0) (S fuel) root = Some root.
Proof.
  intros Hnorm. simpl. unfold exec.
  rewrite normalizePaths_Normalized by done. simpl.
  by rewrite Node_eqb_refl.
Qed.

(** ** What the plugin leaves under the parent of an [inlineVoid] entry *)

Lemma Node_withChildren_children (n : Node) :
  Node_withChildren n (Node_children n) = n.
Proof. by destruct n. Qed.

Lemma Node_withChildren_twice (n : Node) (cs cs' : list Node) :
  Node_withChildren (Node_withChildren n cs) cs' = Node_withChildren n cs'.
Proof. by destruct n. Qed.

Lemma normalizeNode_inlineVoid_effect (normalizeNode0 : NodeEntry → M ())
    (root parent node : Node) (parentPath : Path) (i : nat) :
  isInlineVoidType node = true →
  Node_get root parentPath = Some parent → isText parent = false →
  Node_children parent !! i = Some node →
  ∃ root',
    normalizeNode normalizeNode0 (node, parentPath ++ [i]) root =
      normalizeNode0 (node, parentPath ++ [i]) root' ∧
    Node_get root' parentPath =
      Some (Node_withChildren parent (voidRepair (Node_children parent) i)).
Proof.
  intros Hv Hparent Htext Hi.
  assert (Hlt : i < length (Node_children parent)) by (by eapply lookup_lt_Some).
  rewrite (normalizeNode_inlineVoid _ root parent node parentPath i) by done.
  cbv [mbind M_bind mret M_ret]. unfold voidRepair, afterRepair.
  assert (∃ root1,
    (if bool_decide (S i = length (Node_children parent))
     then Transforms_insertNodes zeroWidthLeaf (parentPath ++ [i + 1])
     else λ editor, Some ((), editor)) root = Some ((), root1) ∧
    Node_get root1 parentPath =
      Some (Node_withChildren parent
        (if bool_decide (S i = length (Node_children parent))
         then Node_children parent ++ [zeroWidthLeaf]
         else Node_children parent))) as (root1 & -> & Hget1).
  { case_bool_decide as Hlast.
    - destruct (insert_after_step (λ _, true) root parent node parentPath i)
        as (root1 & -> & Hget1 & _); eauto.
    - exists root. split; [reflexivity|].
      by rewrite Node_withChildren_children. }
  destruct (bool_decide (i = 0) || prevIsInlineVoid (Node_children parent) i)
    eqn:Hcond; [|eauto].
  set (cs1 := if bool_decide (S i = length (Node_children parent))
              then Node_children parent ++ [zeroWidthLeaf]
              else Node_children parent) in *.
  assert (Hcs1 : ∀ j, j ≤ i → cs1 !! j = Node_children parent !! j).
  { intros j Hj. subst cs1.
    destruct (bool_decide (S i = length (Node_children parent))); [|done].
    rewrite lookup_app_l; [done|lia]. }
  destruct (insert_before_step (λ _, true) root1
    (Node_withChildren parent cs1) node parentPath i)
    as (root2 & -> & Hget2 & _); try done.
  - by destruct parent.
  - rewrite Node_children_withChildren by done. by rewrite Hcs1.
  - rewrite Node_children_withChildren by done.
    destruct i as [|j]; [done|]. simpl in *. rewrite Hcs1 by lia. done.
  - exists root2. split; [done|].
    by rewrite Node_children_withChildren, Node_withChildren_twice in Hget2.
Qed.

(** ** What an editor method keeps *)

Lemma preserves_ret (P : Node → Prop) {A} (a : A) : preserves P (mret a).
Proof. intros editor a' editor' [= _ <-]. done. Qed.

Lemma preserves_bind (P : Node → Prop) {A B} (m : M A) (k : A → M B) :
  preserves P m → (∀ a, preserves P (k a)) → preserves P (m ≫= k).
Proof.
  intros Hm Hk editor b editor' Hrun HP.
  unfold mbind, M_bind in Hrun.
  destruct (m editor) as [[a editor1]|] eqn:Hm1; [|done].
  eapply Hk; [exact Hrun|]. by eapply Hm.
Qed.

Lemma preserves_throwing (P : Node → Prop) {A} (r : option A) :
  preserves P (throwing r).
Proof.
  intros editor a editor' Hrun. unfold throwing in Hrun.
  destruct r; [|done]. by injection Hrun as _ <-.
Qed.

Lemma preserves_reading (P : Node → Prop) {A} (f : Node → option A) :
  preserves P (reading f).
Proof. intros editor a editor'. unfold reading. apply preserves_throwing. Qed.

(** The plugin's method keeps whatever its insertions and the base method
    keep. *)
Lemma normalizeNode_preserves (P : Node → Prop)
    (normalizeNode0 : NodeEntry → M ()) (entry : NodeEntry) :
  (∀ path, preserves P (Transforms_insertNodes zeroWidthLeaf path)) →
  preserves P (normalizeNode0 entry) →
  preserves P (normalizeNode normalizeNode0 entry).
Proof.
  intros Hins Hbase. destruct entry as [node path]. unfold normalizeNode.
  apply preserves_bind; [|done].
  destruct (isInlineVoidType node); [|apply preserves_ret].
  apply preserves_bind; [apply preserves_reading|]. intros parentNode.
  apply preserves_bind; [apply preserves_throwing|]. intros nextPath.
  apply preserves_bind.
  { destruct (negb (negb (Path_hasPrevious path))); [|apply preserves_ret].
    apply preserves_bind; [apply preserves_throwing|]. intros prevPath.
    apply preserves_bind; [apply preserves_reading|]. intros prevSibling.
    apply preserves_ret. }
  intros hasPrev. apply preserves_bind.
  - destruct (bool_decide _); [apply Hins|apply preserves_ret].
  - intros _. destruct (_ || _); [apply Hins|apply preserves_ret].
Qed.

(** ** The claims on normalization *)

(** C9. On an entry whose node's type is not [inlineVoid] the plugin's
    [normalizeNode] does nothing of its own: whatever the base editor's
    [normalizeNode] is, the plugin's method is that method run on the
    untouched document. *)
Theorem normalizeNode_other_type (normalizeNode0 : NodeEntry → M ())
    (node : Node) (path : Path) (editor : Node) :
  Node_type node ≠ Some "inlineVoid" →
  normalizeNode normalizeNode0 (node, path) editor =
  normalizeNode0 (node, path) editor.
Proof.
  intros Hty. unfold normalizeNode, isInlineVoidType.
  rewrite bool_decide_false by done. reflexivity.
Qed.

Lemma normalizeNode_other_type_witness :
  Node_type initialParagraph ≠ Some "inlineVoid" ∧
  normalizeNode (coreNormalizeNode (isVoid (λ _, false)))
    (initialParagraph, [0]) initialValue =
  coreNormalizeNode (isVoid (λ _, false)) (initialParagraph, [0]) initialValue.
Proof.
  assert (H : Node_type initialParagraph ≠ Some "inlineVoid") by discriminate.
  split; [exact H|].
  exact (normalizeNode_other_type _ initialParagraph [0] initialValue H).
Defined.

(** C4. An [inlineVoid] element that is the only child of its parent gets
    two marker leaves, one at its own path, in front of it, and one at the
    next path, behind it: the parent's children become marker, element,
    marker, before the base editor's method runs. *)
Theorem normalizeNode_only_child (normalizeNode0 : NodeEntry → M ())
    (root parent node : Node) (parentPath : Path) :
  isInlineVoidType node = true →
  Node_get root parentPath = Some parent → isText parent = false →
  Node_children parent = [node] →
  ∃ root',
    normalizeNode normalizeNode0 (node, parentPath ++ [0]) root =
      normalizeNode0 (node, parentPath ++ [0]) root' ∧
    Node_get root' parentPath =
      Some (Node_withChildren parent [zeroWidthLeaf; node; zeroWidthLeaf]).
Proof.
  intros Hv Hparent Htext Hcs.
  destruct (normalizeNode_inlineVoid_effect normalizeNode0 root parent node
    parentPath 0) as (root' & Hrun & Hget); try done.
  { by rewrite Hcs. }
  exists root'. split; [done|]. by rewrite Hcs in Hget.
Qed.

Lemma normalizeNode_only_child_witness :
  ∃ root',
    normalizeNode (coreNormalizeNode (isVoid (λ _, false)))
      (inlineVoidElement, [0] ++ [0])
      (Root [Element "paragraph" [inlineVoidElement]]) =
    coreNormalizeNode (isVoid (λ _, false)) (inlineVoidElement, [0] ++ [0]) root' ∧
    Node_get root' [0] =
      Some (Node_withChildren (Element "paragraph" [inlineVoidElement])
              [zeroWidthLeaf; inlineVoidElement; zeroWidthLeaf]).
Proof.
  apply (normalizeNode_only_child _
    (Root [Element "paragraph" [inlineVoidElement]])
    (Element "paragraph" [inlineVoidElement]) inlineVoidElement [0]);
    reflexivity.
Defined.

(** C3. Normalizing the initial document gives each of the two paragraphs a
    fifth child, a marker leaf right behind its final [inlineVoid] element,
    and nothing else. *)
Theorem normalize_initialValue (isVoid0 : Node → bool) (fuel : nat) :
  Editor_normalize (appNormalizeNode isVoid0) (S (S fuel)) initialValue =
    Some (Root [normalizedParagraph; normalizedParagraph]) ∧
  length (Node_children normalizedParagraph) = 5 ∧
  Node_get normalizedParagraph [3] = Some inlineVoidElement ∧
  Node_get normalizedParagraph [4] = Some zeroWidthLeaf.
Proof. repeat split; vm_compute; reflexivity. Qed.

(** C2. On a tree that is already normalized, every entry settled, the pass
    makes no change: no entry's [normalizeNode] changes the tree, and the
    pass returns the tree it was given. The trees the pass returns are such
    trees ([Editor_normalize_Normalized]), so a second pass changes
    nothing. *)
Theorem normalize_idempotent (isVoid0 : Node → bool) (root : Node)
    (fuel : nat) :
  Normalized (isVoid isVoid0) root →
  Editor_normalize (appNormalizeNode isVoid0) (S fuel) root = Some root ∧
  ∀ path node,
    Node_get root path = Some node →
    appNormalizeNode isVoid0 (node, path) root = Some ((), root).
Proof.
  intros Hnorm. split; [by apply Editor_normalize_fixed|].
  intros path node Hget. apply appNormalizeNode_settled; [done|].
  by apply Hnorm.
Qed.

Lemma normalize_idempotent_witness :
  Editor_normalize (appNormalizeNode (λ _, false)) 1
    (Root [normalizedParagraph; normalizedParagraph]) =
    Some (Root [normalizedParagraph; normalizedParagraph]) ∧
  ∀ path node,
    Node_get (Root [normalizedParagraph; normalizedParagraph]) path = Some node →
    appNormalizeNode (λ _, false) (node, path)
      (Root [normalizedParagraph; normalizedParagraph]) =
    Some ((), Root [normalizedParagraph; normalizedParagraph]).
Proof.
  apply (normalize_idempotent (λ _, false)
    (Root [normalizedParagraph; normalizedParagraph]) 0).
  apply (Editor_normalize_Normalized (λ _, false) 2 initialValue);
    reflexivity.
Defined.

(** ** The claims on the toolbar commands *)

(** C5. Whatever the library's transforms do, [toggleBlock] is the command
    of section 4.4: it unwraps the list containers (with [split]), then sets
    the type to [paragraph] if the type was active before the unwrap, to
    [list-item] if the type is a list type that was not active, and to the
    type itself otherwise; and for a list type that was not active it then
    wraps the nodes in a new, empty element of that type. *)
Theorem toggleBlock_refines {EditorState : Type}
    (nodes : (Node → bool) → EditorState → list NodeEntry)
    (unwrapNodes : (Node → bool) → bool → EditorState → EditorState)
    (setNodes : string → EditorState → EditorState)
    (wrapNodes : Node → EditorState → EditorState)
    (editor : EditorState) (type : string) :
  toggleBlock nodes unwrapNodes setNodes wrapNodes editor type =
  toggleBlock_spec nodes unwrapNodes setNodes wrapNodes editor type.
Proof.
  unfold toggleBlock, toggleBlock_spec, includes.
  destruct (isBlockActive nodes editor type); simpl; [reflexivity|].
  destruct (bool_decide (type ∈ LIST_TYPES)); reflexivity.
Qed.

(** C8. [isMarkActive] never throws: whatever [Editor.marks] returns, it
    returns a boolean, and that boolean is [false] when the lookup yields no
    marks, be it [null] or an object without the mark. *)
Theorem isMarkActive_total {EditorState : Type}
    (marksOf : EditorState → option Marks) (editor : EditorState)
    (format : string) :
  ∃ b : bool,
    isMarkActive marksOf editor format = Some b ∧
    (marksOf editor = None → b = false) ∧
    (∀ marks, marksOf editor = Some marks → marks !! format = None →
              b = false).
Proof.
  unfold isMarkActive. destruct (marksOf editor) as [marks|] eqn:Hmarks.
  - rewrite bool_decide_true by eauto. simpl. eexists. split; [done|].
    split; [done|]. intros marks' [= <-] Hnone.
    unfold getProp. rewrite Hnone. reflexivity.
  - rewrite bool_decide_false by (by intros [? ?]).
    exists false. split; [done|]. split; [done|]. done.
Qed.

Lemma isMarkActive_total_witness :
  ∃ b : bool,
    isMarkActive Editor_marks (mkEditor (childrenOfRoot initialValue) None)
      "bold" = Some b ∧ b = false.
Proof.
  destruct (isMarkActive_total Editor_marks
    (mkEditor (childrenOfRoot initialValue) None) "bold")
    as (b & Hb & Hnull & _).
  exists b. split; [exact Hb|]. apply Hnull. reflexivity.
Defined.

(** C10. [isMarkActive] answers [true] only for the boolean [true]: a mark
    stored with any other value, truthy or not, gives [false]. *)
Theorem isMarkActive_strict {EditorState : Type}
    (marksOf : EditorState → option Marks) (editor : EditorState)
    (format : string) (marks : Marks) (v : JsValue) :
  marksOf editor = Some marks → marks !! format = Some v →
  truthy v = true → v ≠ VBool true →
  isMarkActive marksOf editor format = Some false.
Proof.
  intros Hmarks Hv _ Hne. unfold isMarkActive. rewrite Hmarks.
  rewrite bool_decide_true by eauto. simpl.
  unfold getProp. rewrite Hv. simpl. unfold strictEq.
  by rewrite bool_decide_false.
Qed.

Lemma isMarkActive_strict_witness :
  isMarkActive Editor_marks numberMarkEditor "bold" = Some false.
Proof.
  apply (isMarkActive_strict Editor_marks numberMarkEditor "bold"
    {[ "bold" := VNumber 1 ]} (VNumber 1)).
  - reflexivity.
  - vm_compute. reflexivity.
  - reflexivity.
  - discriminate.
Defined.

(** C7. [isBlockActive] answers [true] exactly when some node that is, or is
    an ancestor of, a node the current selection covers has the type. *)
Theorem isBlockActive_iff (editor : Editor) (format : string) :
  isBlockActive Editor_nodes editor format = true ↔
  ∃ range selected path node,
    selection editor = Some range ∧
    is_Some (Node_get (document editor) selected) ∧
    covered range selected = true ∧
    path `prefix_of` selected ∧
    Node_get (document editor) path = Some node ∧
    Node_type node = Some format.
Proof.
  unfold isBlockActive, Editor_nodes. split.
  - destruct (selection editor) as [range|]; [|done].
    destruct (omap _ _) as [|entry rest] eqn:Hlist; [done|]. intros _.
    assert (Hin : entry ∈ entry :: rest) by left.
    rewrite <- Hlist in Hin. apply list_elem_of_omap in Hin as (path & _ & Hf).
    destruct (Node_get (document editor) path) as [node|] eqn:Hget; [|done].
    simpl in Hf.
    destruct (onSelection editor range path) eqn:Hsel; [|done].
    destruct (bool_decide (Node_type node = Some format)) eqn:Hty; [|done].
    apply bool_decide_eq_true in Hty.
    apply existsb_exists in Hsel as (selected & _ & Hq).
    apply andb_true_iff in Hq as [Hq Hprefix].
    apply andb_true_iff in Hq as [Hhas Hcov].
    apply bool_decide_eq_true in Hhas, Hprefix.
    exists range, selected, path, node. done.
  - intros (range & selected & path & node & -> & [sel Hsel] & Hcov & Hprefix
            & Hget & Hty).
    assert (Hentry : (node, path) ∈
      omap (λ path,
           node ← Node_get (document editor) path;
           if onSelection editor range path &&
              bool_decide (Node_type node = Some format)
           then Some (node, path) else None)
        (Node_paths (document editor))).
    { apply list_elem_of_omap. exists path.
      split; [by eapply Node_paths_complete|].
      rewrite Hget. simpl. rewrite (bool_decide_true _ Hty).
      replace (onSelection editor range path) with true; [done|].
      symmetry. apply existsb_exists. exists selected. split.
      - apply list_elem_of_In. by eapply Node_paths_complete.
      - unfold Node_has, Path_isAncestorOrSelf.
        rewrite Hcov, !bool_decide_true by eauto. done. }
    destruct (omap _ _); [by apply elem_of_nil in Hentry|done].
Qed.

Lemma isBlockActive_iff_witness :
  isBlockActive Editor_nodes caretEditor "paragraph" = true.
Proof.
  apply (isBlockActive_iff caretEditor "paragraph").
  exists (mkRange (mkPoint [0; 0] 2) (mkPoint [0; 0] 2)), [0; 0], [0],
    initialParagraph.
  repeat split; try reflexivity.
  - eexists. reflexivity.
  - exists [0]. reflexivity.
Defined.

(** ** Marks on the text of a selection *)

Lemma markActive_insert (marks : Marks) (format : string) :
  markActive (<[format := VBool true]> marks) format = true.
Proof. unfold markActive, getProp. by rewrite lookup_insert_eq. Qed.

Lemma markActive_delete (marks : Marks) (format : string) :
  markActive (delete format marks) format = false.
Proof. unfold markActive, getProp. by rewrite lookup_delete_eq. Qed.

Lemma isMarkActive_returns {EditorState : Type}
    (marksOf : EditorState → option Marks) (editor : EditorState)
    (format : string) :
  ∃ active, isMarkActive marksOf editor format = Some active.
Proof.
  unfold isMarkActive. destruct (marksOf editor) as [marks|].
  - rewrite bool_decide_true by eauto. simpl. eauto.
  - rewrite bool_decide_false by (by intros [? ?]). eauto.
Qed.

Lemma isMarkActive_set {EditorState : Type}
    (marksOf : EditorState → option Marks) (editor : EditorState)
    (format : string) :
  (∃ marks, marksOf editor = Some marks ∧ marks !! format = Some (VBool true)) →
  isMarkActive marksOf editor format = Some true.
Proof.
  intros (marks & Hmarks & Hset). unfold isMarkActive. rewrite Hmarks.
  rewrite bool_decide_true by eauto. simpl. unfold getProp. by rewrite Hset.
Qed.

Lemma isMarkActive_cleared {EditorState : Type}
    (marksOf : EditorState → option Marks) (editor : EditorState)
    (format : string) :
  (∀ marks, marksOf editor = Some marks → marks !! format = None) →
  isMarkActive marksOf editor format = Some false.
Proof.
  intros Hclear. unfold isMarkActive.
  destruct (marksOf editor) as [marks|] eqn:Hmarks.
  - rewrite bool_decide_true by eauto. simpl. unfold getProp.
    by rewrite (Hclear marks eq_refl).
  - by rewrite bool_decide_false by (by intros [? ?]).
Qed.

(** One toggle, where the commands take effect: the answer of
    [isMarkActive] is flipped, and the mark is cleared on every covered
    piece if it was active and set on every covered piece if it was not. *)
Lemma toggleMark_covered {EditorState : Type}
    (marksOf : EditorState → option Marks)
    (addMark : string → JsValue → EditorState → EditorState)
    (removeMark : string → EditorState → EditorState)
    (coveredMarks : EditorState → list Marks)
    (editor : EditorState) (format : string) :
  markCommandsTakeEffect marksOf addMark removeMark coveredMarks format editor →
  ∃ active editor1,
    isMarkActive marksOf editor format = Some active ∧
    toggleMark marksOf addMark removeMark editor format = Some editor1 ∧
    isMarkActive marksOf editor1 format = Some (negb active) ∧
    coveredMarks editor1 =
      (λ marks, if active then delete format marks
                else <[format := VBool true]> marks) <$> coveredMarks editor.
Proof.
  intros (Hset & Hclear & Hadd & Hremove).
  destruct (isMarkActive_returns marksOf editor format) as [active Hactive].
  exists active. unfold toggleMark. rewrite Hactive. cbn [mbind option_bind].
  destruct active; eexists; (split; [reflexivity|]); (split; [reflexivity|]);
    simpl.
  - split; [by apply isMarkActive_cleared|exact Hremove].
  - split; [by apply isMarkActive_set|exact Hadd].
Qed.

(** The view of the selection meets the contract wherever there is a
    selection. *)
Lemma View_takeEffect (format : string) (view : SelectionView) :
  is_Some (View_marks view) →
  markCommandsTakeEffect View_marks View_addMark View_removeMark View_covered
    format view.
Proof.
  intros [marks0 Hsel]. destruct view as [|marks|first rest]; [done| |];
    (split; [|split; [|split; reflexivity]]); simpl.
  - eexists. split; [reflexivity|]. apply lookup_insert_eq.
  - intros marks' [= <-]. apply lookup_delete_eq.
  - eexists. split; [reflexivity|]. apply lookup_insert_eq.
  - intros marks' [= <-]. apply lookup_delete_eq.
Qed.

Lemma View_toggleMark_selected (format : string) (view view1 : SelectionView) :
  is_Some (View_marks view) →
  toggleMark View_marks View_addMark View_removeMark view format = Some view1 →
  is_Some (View_marks view1).
Proof.
  intros [marks0 Hsel]. unfold toggleMark.
  destruct (isMarkActive View_marks view format) as [[|]|]; simpl; [| |done];
    intros [= <-]; destruct view; simpl in *; eauto; done.
Qed.




(** ** Further properties of the plugin's [normalizeNode] *)

Lemma insert_marker_ok (root parent : Node) (parentPath : Path) (i : nat) :
  Node_get root parentPath = Some parent → isText parent = false →
  i ≤ length (Node_children parent) →
  ∃ root',
    Transforms_insertNodes zeroWidthLeaf (parentPath ++ [i]) root
      = Some ((), root') ∧
    Node_get root' parentPath =
      Some (Node_withChildren parent
              (take i (Node_children parent) ++
               zeroWidthLeaf :: drop i (Node_children parent))).
Proof.
  intros Hparent Htext Hi.
  destruct (insertAt_spec (λ _, true) zeroWidthLeaf parentPath i root parent)
    as (root' & Hins & Hget & _); try done.
  exists root'. unfold Transforms_insertNodes. by rewrite Hins.
Qed.

(** The plugin's method is its own part, run with an idle base method,
    followed by the base method on the same entry. *)
Lemma normalizeNode_factor (normalizeNode0 : NodeEntry → M ())
    (entry : NodeEntry) (editor : Node) :
  normalizeNode normalizeNode0 entry editor =
  match normalizeNode idleNormalizeNode entry editor with
  | Some (_, editor') => normalizeNode0 entry editor'
  | None => None
  end.
Proof.
  destruct entry as [node path]. unfold normalizeNode, idleNormalizeNode.
  cbv [mbind M_bind mret M_ret].
  destruct (isInlineVoidType node); [|reflexivity].
  match goal with
  | |- match ?m with _ => _ end = _ => destruct m as [[[] e]|]; reflexivity
  end.
Qed.

Lemma plugin_returns_snoc (root parent node : Node) (parentPath : Path)
    (i : nat) :
  isInlineVoidType node = true →
  Node_get root parentPath = Some parent → isText parent = false →
  is_Some (normalizeNode idleNormalizeNode (node, parentPath ++ [i]) root) ↔
  i ≤ length (Node_children parent).
Proof.
  intros Hv Hparent Htext.
  unfold normalizeNode, idleNormalizeNode. rewrite Hv.
  cbv [mbind M_bind mret M_ret reading throwing].
  rewrite (Node_parent_snoc _ _ _ _ Hparent Htext).
  rewrite Path_next_snoc, Path_hasPrevious_snoc, Path_lastIndex_snoc.
  assert (Hafter : ∀ k, k ≤ length (Node_children parent) →
    ∃ root1 parent1,
      (if bool_decide (Z.of_nat <$> Some k =
             Some (Z.of_nat (length (Node_children parent)) - 1)%Z)
       then Transforms_insertNodes zeroWidthLeaf (parentPath ++ [k + 1])
       else λ editor, Some ((), editor)) root = Some ((), root1) ∧
      Node_get root1 parentPath = Some parent1 ∧ isText parent1 = false ∧
      k ≤ length (Node_children parent1)).
  { intros k Hk. case_bool_decide as Hlast.
    - cbn in Hlast. injection Hlast as Hlast.
      destruct (insert_marker_ok root parent parentPath (k + 1))
        as (root1 & -> & Hget1); [done|done|lia|].
      eexists _, _. split; [done|]. split; [exact Hget1|].
      split; [by destruct parent|].
      rewrite Node_children_withChildren by done.
      rewrite length_app, length_take. simpl. rewrite length_drop. lia.
    - exists root, parent. done. }
  destruct i as [|j].
  - rewrite (bool_decide_false (0 < 0)) by lia. cbn [negb]. cbv beta iota.
    destruct (Hafter 0) as (root1 & parent1 & -> & Hget1 & Htext1 & Hle1); [lia|].
    cbn [orb].
    destruct (insert_marker_ok root1 parent1 parentPath 0)
      as (root2 & -> & _); [done|done|lia|].
    split; [intros _; lia|eauto].
  - rewrite (bool_decide_true (0 < S j)) by lia. cbn [negb].
    rewrite Path_previous_snoc. cbv beta iota.
    destruct (Node_get root (parentPath ++ [j])) as [prev|] eqn:Hprev.
    + apply Node_get_snoc in Hprev as (parent' & Hparent' & _ & Hj).
      assert (parent' = parent) as -> by congruence.
      apply lookup_lt_Some in Hj.
      destruct (Hafter (S j)) as (root1 & parent1 & -> & Hget1 & Htext1 & Hle1);
        [lia|].
      split; [intros _; lia|intros _].
      destruct (false || isInlineVoidType prev); [|eauto].
      destruct (insert_marker_ok root1 parent1 parentPath (S j))
        as (root2 & -> & _); [done|done|lia|]. eauto.
    + split; [by intros [? ?]|]. intros Hle.
      destruct (lookup_lt_is_Some_2 (Node_children parent) j) as [prev Hj]; [lia|].
      assert (Node_get root (parentPath ++ [j]) = Some prev) as Hget.
      { apply Node_get_snoc. eauto. }
      congruence.
Qed.

(** X1. On an [inlineVoid] entry the plugin's own part throws exactly when
    the entry's path is not addressable: it is the root path, or its parent
    does not resolve or is a leaf, or its index is past the end of the
    parent's children. Otherwise the base method runs, on the document the
    plugin's part leaves. *)
Theorem normalizeNode_throws_iff (node : Node) (path : Path) (editor : Node) :
  isInlineVoidType node = true →
  (is_Some (normalizeNode idleNormalizeNode (node, path) editor) ↔
   addressable editor path) ∧
  ∀ normalizeNode0,
    normalizeNode normalizeNode0 (node, path) editor =
    match normalizeNode idleNormalizeNode (node, path) editor with
    | Some (_, editor') => normalizeNode0 (node, path) editor'
    | None => None
    end.
Proof.
  intros Hv. split; [|intros; apply normalizeNode_factor]. split.
  - intros Hsome.
    destruct (decide (path = [])) as [->|Hne].
    { exfalso. revert Hsome. unfold normalizeNode. rewrite Hv.
      cbv [mbind M_bind mret M_ret reading throwing]. simpl. by intros [? ?]. }
    destruct (Path_snoc_inv path Hne) as (pp & i & ->).
    destruct (Node_get editor pp) as [parent|] eqn:Hparent.
    2:{ exfalso. revert Hsome. unfold normalizeNode. rewrite Hv.
        cbv [mbind M_bind mret M_ret reading throwing].
        unfold Node_parent. rewrite Path_parent_snoc. cbn [mbind option_bind].
        rewrite Hparent. by intros [? ?]. }
    destruct (isText parent) eqn:Htext.
    { exfalso. revert Hsome. unfold normalizeNode. rewrite Hv.
      cbv [mbind M_bind mret M_ret reading throwing].
      unfold Node_parent. rewrite Path_parent_snoc. cbn [mbind option_bind].
      rewrite Hparent. cbn [mbind option_bind]. rewrite Htext. by intros [? ?]. }
    exists pp, i, parent. repeat split; try done.
    by apply (plugin_returns_snoc editor parent node pp i Hv Hparent Htext).
  - intros (pp & i & parent & -> & Hparent & Htext & Hi).
    by apply (plugin_returns_snoc editor parent node pp i Hv Hparent Htext).
Qed.

Lemma normalizeNode_throws_iff_witness :
  is_Some (normalizeNode idleNormalizeNode (inlineVoidElement, [0; 1])
             initialValue) ↔
  addressable initialValue [0; 1].
Proof.
  exact (proj1 (normalizeNode_throws_iff inlineVoidElement [0; 1] initialValue
    eq_refl)).
Defined.

Lemma afterRepair_app (cs : list Node) (i : nat) :
  ∃ tail, afterRepair cs i = cs ++ tail ∧ (tail = [] ∨ tail = [zeroWidthLeaf]).
Proof.
  unfold afterRepair. case_bool_decide.
  - exists [zeroWidthLeaf]. eauto.
  - exists []. by rewrite app_nil_r; eauto.
Qed.

Lemma afterRepair_lookup (cs : list Node) (i j : nat) :
  j < length cs → afterRepair cs i !! j = cs !! j.
Proof.
  intros Hj. destruct (afterRepair_app cs i) as (tail & -> & _).
  by rewrite lookup_app_l.
Qed.

Lemma afterRepair_next (cs : list Node) (i : nat) :
  i < length cs → is_Some (afterRepair cs i !! S i).
Proof.
  intros Hi. unfold afterRepair. case_bool_decide as Hlast.
  - apply lookup_lt_is_Some. rewrite length_app. simpl. lia.
  - apply lookup_lt_is_Some. lia.
Qed.

(** X2. On an [inlineVoid] entry that resolves, the plugin only inserts:
    the base method runs on a document in which the parent keeps all its
    children, in their order, with at most two nodes more, and every node
    that is new is a marker leaf. *)
Theorem normalizeNode_keeps_siblings (normalizeNode0 : NodeEntry → M ())
    (root parent node : Node) (parentPath : Path) (i : nat) :
  isInlineVoidType node = true →
  Node_get root parentPath = Some parent → isText parent = false →
  Node_children parent !! i = Some node →
  ∃ root' parent',
    normalizeNode normalizeNode0 (node, parentPath ++ [i]) root =
      normalizeNode0 (node, parentPath ++ [i]) root' ∧
    Node_get root' parentPath = Some parent' ∧
    Node_type parent' = Node_type parent ∧
    Node_children parent `sublist_of` Node_children parent' ∧
    length (Node_children parent') ≤ length (Node_children parent) + 2 ∧
    ∀ c, c ∈ Node_children parent' →
         c ∈ Node_children parent ∨ c = zeroWidthLeaf.
Proof.
  intros Hv Hparent Htext Hi.
  destruct (normalizeNode_inlineVoid_effect normalizeNode0 root parent node
    parentPath i Hv Hparent Htext Hi) as (root' & Hrun & Hget).
  eexists root', _. split; [exact Hrun|]. split; [exact Hget|].
  split; [by destruct parent|].
  rewrite Node_children_withChildren by done.
  destruct (afterRepair_app (Node_children parent) i) as (tail & Hafter & Htail).
  unfold voidRepair. rewrite Hafter.
  destruct (bool_decide (i = 0) || prevIsInlineVoid (Node_children parent) i).
  - split; [|split].
    + rewrite <- (take_drop i (Node_children parent ++ tail)) at 1.
      etrans; [apply sublist_inserts_r|]; [reflexivity|].
      rewrite take_drop.
      rewrite <- (take_drop i (Node_children parent ++ tail)) at 1.
      apply sublist_app; [reflexivity|]. by apply sublist_cons.
    + rewrite length_app. simpl. rewrite length_take, length_drop, length_app.
      destruct Htail as [->| ->]; simpl; lia.
    + intros c Hc. apply elem_of_app in Hc as [Hc|Hc].
      * apply subseteq_take in Hc. apply elem_of_app in Hc as [Hc|Hc]; [by left|].
        destruct Htail as [->| ->]; [by apply elem_of_nil in Hc|].
        apply list_elem_of_singleton in Hc. by right.
      * apply elem_of_cons in Hc as [->|Hc]; [by right|].
        apply subseteq_drop in Hc. apply elem_of_app in Hc as [Hc|Hc]; [by left|].
        destruct Htail as [->| ->]; [by apply elem_of_nil in Hc|].
        apply list_elem_of_singleton in Hc. by right.
  - split; [by apply sublist_inserts_r|]. split.
    + rewrite length_app. destruct Htail as [->| ->]; simpl; lia.
    + intros c Hc. apply elem_of_app in Hc as [Hc|Hc]; [by left|].
      destruct Htail as [->| ->]; [by apply elem_of_nil in Hc|].
      apply list_elem_of_singleton in Hc. by right.
Qed.

Lemma normalizeNode_keeps_siblings_witness :
  ∃ root' parent',
    normalizeNode idleNormalizeNode (inlineVoidElement, [0] ++ [3]) initialValue =
      idleNormalizeNode (inlineVoidElement, [0] ++ [3]) root' ∧
    Node_get root' [0] = Some parent' ∧
    Node_type parent' = Node_type initialParagraph ∧
    Node_children initialParagraph `sublist_of` Node_children parent' ∧
    length (Node_children parent') ≤ length (Node_children initialParagraph) + 2 ∧
    ∀ c, c ∈ Node_children parent' →
         c ∈ Node_children initialParagraph ∨ c = zeroWidthLeaf.
Proof.
  apply (normalizeNode_keeps_siblings idleNormalizeNode initialValue
    initialParagraph inlineVoidElement [0] 3); reflexivity.
Defined.

Lemma voidRepair_lookups (cs : list Node) (i : nat) (node : Node) :
  cs !! i = Some node →
  ∃ k,
    voidRepair cs i !! S k = Some node ∧
    (∃ prev, voidRepair cs i !! k = Some prev ∧ isInlineVoidType prev = false) ∧
    is_Some (voidRepair cs i !! S (S k)) ∧
    (if bool_decide (i = 0) || prevIsInlineVoid cs i
     then k = i ∧ voidRepair cs i !! i = Some zeroWidthLeaf
     else S k = i).
Proof.
  intros Hi. assert (Hlt : i < length cs) by (by eapply lookup_lt_Some).
  assert (Hlen : i < length (afterRepair cs i)).
  { apply lookup_lt_is_Some. rewrite afterRepair_lookup by done. eauto. }
  unfold voidRepair.
  destruct (bool_decide (i = 0) || prevIsInlineVoid cs i) eqn:Hcond.
  - exists i.
    assert (Htake : length (take i (afterRepair cs i)) = i)
      by (rewrite length_take; lia).
    split; [|split; [|split; [|split; [done|]]]].
    + rewrite lookup_app_r by lia. rewrite Htake.
      replace (S i - i) with 1 by lia. simpl.
      rewrite lookup_drop, Nat.add_0_r. by rewrite afterRepair_lookup.
    + exists zeroWidthLeaf. split; [|done].
      rewrite lookup_app_r by lia. rewrite Htake.
      by replace (i - i) with 0 by lia.
    + rewrite lookup_app_r by lia. rewrite Htake.
      replace (S (S i) - i) with 2 by lia. simpl.
      rewrite lookup_drop. replace (i + 1) with (S i) by lia.
      by apply afterRepair_next.
    + rewrite lookup_app_r by lia. rewrite Htake.
      by replace (i - i) with 0 by lia.
  - apply orb_false_iff in Hcond as [Hi0 Hprev].
    apply bool_decide_eq_false in Hi0.
    destruct i as [|j]; [done|]. simpl in Hprev.
    destruct (cs !! j) as [prev|] eqn:Hj.
    2:{ apply lookup_ge_None in Hj. lia. }
    exists j. split; [by rewrite afterRepair_lookup|].
    split; [|split; [by apply afterRepair_next|done]].
    exists prev. split; [|done]. rewrite afterRepair_lookup by lia. done.
Qed.

(** X3. One run on an [inlineVoid] entry that resolves repairs that
    element: in the document the base method runs on, the element is still
    under its parent, at its index or one further, with a sibling right
    before it that is not an [inlineVoid] element and a sibling right after
    it. *)
Theorem normalizeNode_repairs_entry (normalizeNode0 : NodeEntry → M ())
    (root parent node : Node) (parentPath : Path) (i : nat) :
  isInlineVoidType node = true →
  Node_get root parentPath = Some parent → isText parent = false →
  Node_children parent !! i = Some node →
  ∃ root' k prev next,
    normalizeNode normalizeNode0 (node, parentPath ++ [i]) root =
      normalizeNode0 (node, parentPath ++ [i]) root' ∧
    (S k = i ∨ k = i) ∧
    Node_get root' (parentPath ++ [S k]) = Some node ∧
    Node_get root' (parentPath ++ [k]) = Some prev ∧
    isInlineVoidType prev = false ∧
    Node_get root' (parentPath ++ [S (S k)]) = Some next.
Proof.
  intros Hv Hparent Htext Hi.
  destruct (normalizeNode_inlineVoid_effect normalizeNode0 root parent node
    parentPath i Hv Hparent Htext Hi) as (root' & Hrun & Hget).
  destruct (voidRepair_lookups _ i node Hi)
    as (k & Hnode & (prev & Hprev & Hpv) & [next Hnext] & Hk).
  assert (Htext' : isText (Node_withChildren parent
    (voidRepair (Node_children parent) i)) = false) by (by destruct parent).
  exists root', k, prev, next. split; [exact Hrun|].
  split.
  { destruct (bool_decide (i = 0) || prevIsInlineVoid (Node_children parent) i);
      [right; tauto|by left]. }
  repeat split; try done; apply Node_get_snoc; eexists;
    (split; [exact Hget|]); (split; [exact Htext'|]);
    by rewrite Node_children_withChildren.
Qed.

Lemma normalizeNode_repairs_entry_witness :
  ∃ root' k prev next,
    normalizeNode idleNormalizeNode (inlineVoidElement, [0] ++ [3]) initialValue =
      idleNormalizeNode (inlineVoidElement, [0] ++ [3]) root' ∧
    (S k = 3 ∨ k = 3) ∧
    Node_get root' ([0] ++ [S k]) = Some inlineVoidElement ∧
    Node_get root' ([0] ++ [k]) = Some prev ∧
    isInlineVoidType prev = false ∧
    Node_get root' ([0] ++ [S (S k)]) = Some next.
Proof.
  apply (normalizeNode_repairs_entry idleNormalizeNode initialValue
    initialParagraph inlineVoidElement [0] 3); reflexivity.
Defined.

(** X4. When the plugin puts a marker in front of the element, because it
    is a first child or follows an [inlineVoid] element, the entry it then
    hands to the base method is stale: its path resolves to the marker leaf,
    and the element is at the next path. *)
Theorem normalizeNode_stale_entry (normalizeNode0 : NodeEntry → M ())
    (root parent node : Node) (parentPath : Path) (i : nat) :
  isInlineVoidType node = true →
  Node_get root parentPath = Some parent → isText parent = false →
  Node_children parent !! i = Some node →
  (i = 0 ∨ ∃ j prev, i = S j ∧ Node_children parent !! j = Some prev ∧
                      isInlineVoidType prev = true) →
  ∃ root',
    normalizeNode normalizeNode0 (node, parentPath ++ [i]) root =
      normalizeNode0 (node, parentPath ++ [i]) root' ∧
    Node_get root' (parentPath ++ [i]) = Some zeroWidthLeaf ∧
    Node_get root' (parentPath ++ [S i]) = Some node.
Proof.
  intros Hv Hparent Htext Hi Hfront.
  destruct (normalizeNode_inlineVoid_effect normalizeNode0 root parent node
    parentPath i Hv Hparent Htext Hi) as (root' & Hrun & Hget).
  destruct (voidRepair_lookups _ i node Hi) as (k & Hnode & _ & _ & Hk).
  assert (Hcond : bool_decide (i = 0) ||
                  prevIsInlineVoid (Node_children parent) i = true).
  { destruct Hfront as [->|(j & prev & -> & Hj & Hpv)]; [done|].
    simpl. by rewrite Hj. }
  rewrite Hcond in Hk. destruct Hk as [-> Hmarker].
  assert (Htext' : isText (Node_withChildren parent
    (voidRepair (Node_children parent) i)) = false) by (by destruct parent).
  exists root'. split; [exact Hrun|].
  split; apply Node_get_snoc; eexists; (split; [exact Hget|]);
    (split; [exact Htext'|]); by rewrite Node_children_withChildren.
Qed.

Lemma normalizeNode_stale_entry_witness :
  ∃ root',
    normalizeNode idleNormalizeNode (inlineVoidElement, [0] ++ [1]) adjacentVoids =
      idleNormalizeNode (inlineVoidElement, [0] ++ [1]) root' ∧
    Node_get root' ([0] ++ [1]) = Some zeroWidthLeaf ∧
    Node_get root' ([0] ++ [2]) = Some inlineVoidElement.
Proof.
  apply (normalizeNode_stale_entry idleNormalizeNode adjacentVoids
    (Element "paragraph" [inlineVoidElement; inlineVoidElement])
    inlineVoidElement [0] 1); try reflexivity.
  right. exists 0, inlineVoidElement. repeat split; reflexivity.
Defined.

Lemma Node_tokens_unfold (n : Node) :
  isText n = false →
  Node_tokens n =
  [TokOpen (Node_type n)] ++
  concat (map Node_tokens (Node_children n)) ++ [TokClose].
Proof. by destruct n. Qed.

Lemma filter_concat_splice {A B} (P : B → Prop) `{∀ x, Decision (P x)}
    (f : A → list B) (l : list A) (i : nat) (x : A) :
  filter P (f x) = [] →
  filter P (concat (map f (take i l ++ x :: drop i l))) =
  filter P (concat (map f l)).
Proof.
  intros Hx. rewrite <- (take_drop i l) at 3.
  rewrite !map_app, !concat_app, !filter_app. simpl.
  by rewrite filter_app, Hx.
Qed.

Lemma filter_concat_replace {A B} (P : B → Prop) `{∀ x, Decision (P x)}
    (f : A → list B) (l : list A) (i : nat) (x y : A) :
  l !! i = Some x → filter P (f y) = filter P (f x) →
  filter P (concat (map f (<[i := y]> l))) = filter P (concat (map f l)).
Proof.
  revert i. induction l as [|a l IH]; intros [|i] Hi Hxy; simpl in *; try done.
  - injection Hi as ->. by rewrite !filter_app, Hxy.
  - by rewrite !filter_app, (IH i).
Qed.

(** Inserting a leaf changes the written-out document by that leaf's token
    only. *)
Lemma insertAt_tokens (P : Token → Prop) `{∀ t, Decision (P t)}
    (text : string) (marks : Marks) (at_ : Path) (root root' : Node) :
  ¬ P (TokText text marks) →
  insertAt (Text text marks) at_ root = Some root' →
  filter P (Node_tokens root') = filter P (Node_tokens root) ∧
  isText root' = isText root ∧ Node_type root' = Node_type root.
Proof.
  intros Hleaf. revert root root'.
  induction at_ as [|i rest IH]; intros root root' Hins; [done|].
  destruct (isText root) eqn:Htext;
    [by destruct rest; simpl in Hins; rewrite Htext in Hins|].
  destruct rest as [|j rest].
  - simpl in Hins. rewrite Htext in Hins.
    destruct (bool_decide _); [|done]. injection Hins as <-.
    split; [|by destruct root].
    rewrite (Node_tokens_unfold root), (Node_tokens_unfold (Node_withChildren _ _))
      by (by destruct root).
    rewrite Node_children_withChildren by done.
    replace (Node_type (Node_withChildren root _)) with (Node_type root)
      by (by destruct root).
    rewrite !filter_app. do 2 f_equal.
    apply filter_concat_splice. simpl. by rewrite filter_cons_False.
  - rewrite insertAt_cons, Htext in Hins by done.
    destruct (Node_children root !! i) as [child|] eqn:Hi; [|done].
    cbn [mbind option_bind] in Hins.
    destruct (insertAt (Text text marks) (j :: rest) child) as [child'|] eqn:Hc;
      [|done].
    cbn [mbind option_bind] in Hins. injection Hins as <-.
    destruct (IH child child' Hc) as (Htok & _ & _).
    split; [|by destruct root].
    rewrite (Node_tokens_unfold root), (Node_tokens_unfold (Node_withChildren _ _))
      by (by destruct root).
    rewrite Node_children_withChildren by done.
    replace (Node_type (Node_withChildren root _)) with (Node_type root)
      by (by destruct root).
    rewrite !filter_app. do 2 f_equal.
    by apply (filter_concat_replace _ _ _ _ child child').
Qed.

(** X5. The plugin changes the document by marker leaves only: if the base
    method keeps the document as it is written out without marker leaves,
    every element and every other leaf in place and in order, then so does
    the plugin's method, on every entry. *)
Theorem normalizeNode_keeps_content (normalizeNode0 : NodeEntry → M ())
    (entry : NodeEntry) (editor editor' : Node) :
  (∀ e e', normalizeNode0 entry e = Some ((), e') →
           contentTokens e' = contentTokens e) →
  normalizeNode normalizeNode0 entry editor = Some ((), editor') →
  contentTokens editor' = contentTokens editor.
Proof.
  intros Hbase Hrun.
  apply (normalizeNode_preserves
    (λ e, contentTokens e = contentTokens editor) normalizeNode0 entry)
    with (editor := editor) (a := ()); [| |exact Hrun|reflexivity].
  - intros path e [] e' Hins He. rewrite <- He.
    unfold Transforms_insertNodes in Hins.
    destruct (insertAt zeroWidthLeaf path e) as [e1|] eqn:Hat; [|done].
    injection Hins as <-. unfold contentTokens.
    apply (insertAt_tokens _ zeroWidthChar ∅ path e e1); [|exact Hat].
    intros Hne. by apply Hne.
  - intros e [] e' Hrun0 He. rewrite <- He. by apply Hbase.
Qed.

Lemma normalizeNode_keeps_content_witness :
  ∃ editor',
    normalizeNode idleNormalizeNode (inlineVoidElement, [0; 3]) initialValue =
      Some ((), editor') ∧
    contentTokens editor' = contentTokens initialValue.
Proof.
  eexists. split; [reflexivity|].
  apply (normalizeNode_keeps_content idleNormalizeNode
    (inlineVoidElement, [0; 3]) initialValue).
  - intros e e' H. injection H as <-. reflexivity.
  - reflexivity.
Defined.

(** X6. One run is enough for an element: after the plugin's part has run
    on an [inlineVoid] entry that resolves, the element is under the same
    parent at its index or one further, and running the plugin's part again
    on that element, at the path it now has, changes nothing. *)
Theorem normalizeNode_second_run (root parent node : Node)
    (parentPath : Path) (i : nat) :
  isInlineVoidType node = true →
  Node_get root parentPath = Some parent → isText parent = false →
  Node_children parent !! i = Some node →
  ∃ root' k,
    normalizeNode idleNormalizeNode (node, parentPath ++ [i]) root
      = Some ((), root') ∧
    (S k = i ∨ k = i) ∧
    Node_get root' (parentPath ++ [S k]) = Some node ∧
    normalizeNode idleNormalizeNode (node, parentPath ++ [S k]) root'
      = Some ((), root').
Proof.
  intros Hv Hparent Htext Hi.
  destruct (normalizeNode_inlineVoid_effect idleNormalizeNode root parent node
    parentPath i Hv Hparent Htext Hi) as (root' & Hrun & Hget).
  destruct (voidRepair_lookups _ i node Hi)
    as (k & Hnode & (prev & Hprev & Hpv) & Hnext & Hk).
  set (parent' := Node_withChildren parent (voidRepair (Node_children parent) i))
    in *.
  assert (Htext' : isText parent' = false) by (by destruct parent).
  assert (Hcs : Node_children parent' = voidRepair (Node_children parent) i)
    by (by apply Node_children_withChildren).
  exists root', k. split; [exact Hrun|]. split.
  { destruct (bool_decide (i = 0) || prevIsInlineVoid (Node_children parent) i);
      [right; tauto|by left]. }
  split.
  { apply Node_get_snoc. exists parent'. by rewrite Hcs. }
  rewrite (normalizeNode_inlineVoid _ root' parent' node parentPath (S k))
    by (done || by rewrite Hcs).
  rewrite Hcs. apply lookup_lt_is_Some in Hnext.
  rewrite (bool_decide_false (S (S k) = _)) by lia.
  rewrite (bool_decide_false (S k = 0)) by lia.
  unfold prevIsInlineVoid. rewrite Hprev. simpl. rewrite Hpv. reflexivity.
Qed.

Lemma normalizeNode_second_run_witness :
  ∃ root' k,
    normalizeNode idleNormalizeNode (inlineVoidElement, [0] ++ [1]) adjacentVoids
      = Some ((), root') ∧
    (S k = 1 ∨ k = 1) ∧
    Node_get root' ([0] ++ [S k]) = Some inlineVoidElement ∧
    normalizeNode idleNormalizeNode (inlineVoidElement, [0] ++ [S k]) root'
      = Some ((), root').
Proof.
  apply (normalizeNode_second_run adjacentVoids
    (Element "paragraph" [inlineVoidElement; inlineVoidElement])
    inlineVoidElement [0] 1); reflexivity.
Defined.

(** ** Further properties of the toolbar and the renderers *)

(** X7. [toggleMark] flips what [isMarkActive] answers, whenever the
    library's two commands take effect where the lookup reads: after
    [addMark] the lookup has the mark with the value [true], after
    [removeMark] it has no such mark. *)
Theorem toggleMark_flips {EditorState : Type}
    (marksOf : EditorState → option Marks)
    (addMark : string → JsValue → EditorState → EditorState)
    (removeMark : string → EditorState → EditorState)
    (editor : EditorState) (format : string) :
  (∃ marks, marksOf (addMark format (VBool true) editor) = Some marks ∧
            marks !! format = Some (VBool true)) →
  (∀ marks, marksOf (removeMark format editor) = Some marks →
            marks !! format = None) →
  ∃ active editor1,
    isMarkActive marksOf editor format = Some active ∧
    toggleMark marksOf addMark removeMark editor format = Some editor1 ∧
    isMarkActive marksOf editor1 format = Some (negb active).
Proof.
  intros (marksA & HmarksA & HA) Hremove.
  assert (Hstate : ∃ active, isMarkActive marksOf editor format = Some active).
  { unfold isMarkActive. destruct (marksOf editor) as [marks|].
    - rewrite bool_decide_true by eauto. simpl. eauto.
    - rewrite bool_decide_false by (by intros [? ?]). eauto. }
  destruct Hstate as [active Hactive].
  exists active. unfold toggleMark. rewrite Hactive. simpl.
  destruct active; eexists; (split; [done|]); (split; [done|]); simpl.
  - unfold isMarkActive.
    destruct (marksOf (removeMark format editor)) as [marks|] eqn:Hmarks.
    + rewrite bool_decide_true by eauto. simpl. unfold getProp.
      by rewrite (Hremove marks eq_refl).
    + by rewrite bool_decide_false by (by intros [? ?]).
  - unfold isMarkActive. rewrite HmarksA.
    rewrite bool_decide_true by eauto. simpl. unfold getProp. by rewrite HA.
Qed.

Lemma toggleMark_flips_witness :
  ∃ active editor1,
    isMarkActive View_marks mixedSelection "bold" = Some active ∧
    toggleMark View_marks View_addMark View_removeMark mixedSelection "bold"
      = Some editor1 ∧
    isMarkActive View_marks editor1 "bold" = Some (negb active).
Proof.
  apply (toggleMark_flips View_marks View_addMark View_removeMark
    mixedSelection "bold").
  - eexists. split; [reflexivity|]. apply lookup_insert_eq.
  - intros marks H. injection H as <-. apply lookup_delete_eq.
Defined.

(** X13. Whatever the library's transforms do, [toggleBlock] never sets a
    node's type to a list-container type: the type it passes to [setNodes]
    is outside [LIST_TYPES], and it wraps, in an empty element of the
    requested type, only when that type is a list type. *)
Theorem toggleBlock_never_sets_list_type {EditorState : Type}
    (nodes : (Node → bool) → EditorState → list NodeEntry)
    (unwrapNodes : (Node → bool) → bool → EditorState → EditorState)
    (setNodes : string → EditorState → EditorState)
    (wrapNodes : Node → EditorState → EditorState)
    (editor : EditorState) (format : string) :
  ∃ type,
    (type ∉ LIST_TYPES) ∧
    (toggleBlock nodes unwrapNodes setNodes wrapNodes editor format =
       setNodes type
         (unwrapNodes (λ n, includes LIST_TYPES (Node_type n)) true editor) ∨
     (format ∈ LIST_TYPES) ∧
     toggleBlock nodes unwrapNodes setNodes wrapNodes editor format =
       wrapNodes (Element format [])
         (setNodes type
            (unwrapNodes (λ n, includes LIST_TYPES (Node_type n)) true editor))).
Proof.
  unfold toggleBlock, includes.
  destruct (isBlockActive nodes editor format); simpl.
  - exists "paragraph". split; [|by left].
    unfold LIST_TYPES. intros Hin. by repeat (apply elem_of_cons in Hin as [?|Hin]);
      try apply elem_of_nil in Hin.
  - case_bool_decide as Hlist.
    + exists "list-item". split; [|by right].
      unfold LIST_TYPES. intros Hin.
      by repeat (apply elem_of_cons in Hin as [?|Hin]);
        try apply elem_of_nil in Hin.
    + exists format. split; [done|by left].
Qed.

Lemma Leaf_tags (leaf : Marks) :
  Html_tags (Leaf leaf Children) =
  "span" ::
  (if truthy (getProp leaf "underline") then ["u"] else []) ++
  (if truthy (getProp leaf "italic") then ["em"] else []) ++
  (if truthy (getProp leaf "code") then ["code"] else []) ++
  (if truthy (getProp leaf "bold") then ["strong"] else []).
Proof.
  unfold Leaf.
  by destruct (truthy (getProp leaf "underline")),
    (truthy (getProp leaf "italic")), (truthy (getProp leaf "code")),
    (truthy (getProp leaf "bold")).
Qed.

Lemma markTags_cases (format tag : string) :
  (format, tag) ∈ markTags →
  (format = "bold" ∧ tag = "strong") ∨ (format = "code" ∧ tag = "code") ∨
  (format = "italic" ∧ tag = "em") ∨ (format = "underline" ∧ tag = "u").
Proof.
  unfold markTags. intros Hin.
  repeat (apply elem_of_cons in Hin as [[= -> ->]|Hin]; [tauto|]).
  by apply elem_of_nil in Hin.
Qed.

Lemma Leaf_tag_truthy (leaf : Marks) (format tag : string) :
  (format, tag) ∈ markTags →
  tag ∈ Html_tags (Leaf leaf Children) ↔ truthy (getProp leaf format) = true.
Proof.
  intros Hin. rewrite Leaf_tags.
  destruct (markTags_cases _ _ Hin)
    as [[-> ->]|[[-> ->]|[[-> ->]|[-> ->]]]];
    destruct (truthy (getProp leaf "underline")),
      (truthy (getProp leaf "italic")), (truthy (getProp leaf "code")),
      (truthy (getProp leaf "bold")); simpl;
    (split; intros H;
     first [ done
           | by apply (bool_decide_unpack _)
           | apply (bool_decide_pack _) in H; vm_compute in H; destruct H ]).
Qed.

(** X9. [Leaf] renders a mark exactly when its value is truthy, whatever
    the other marks are: the tag of each of the four marks is in the
    rendering if and only if the leaf's property is truthy; and the
    rendering has no tags but [span] and those four. *)
Theorem Leaf_renders_truthy (leaf : Marks) :
  (∀ format tag, (format, tag) ∈ markTags →
     (tag ∈ Html_tags (Leaf leaf Children) ↔
      truthy (getProp leaf format) = true)) ∧
  (∀ name, name ∈ Html_tags (Leaf leaf Children) →
     name = "span" ∨ ∃ format, (format, name) ∈ markTags).
Proof.
  split; [intros format tag; apply Leaf_tag_truthy|].
  intros name. rewrite Leaf_tags. intros Hin.
  apply elem_of_cons in Hin as [->|Hin]; [by left|]. right.
  repeat (apply elem_of_app in Hin as [Hin|Hin]);
    match type of Hin with
    | _ ∈ (if ?b then _ else _) => destruct b
    end; try (by apply elem_of_nil in Hin);
    apply list_elem_of_singleton in Hin as ->;
    first [ by exists "underline"; apply (bool_decide_unpack _)
          | by exists "italic"; apply (bool_decide_unpack _)
          | by exists "code"; apply (bool_decide_unpack _)
          | by exists "bold"; apply (bool_decide_unpack _) ].
Qed.

(** X10. Toggle, then render: wherever the library's two commands take
    effect, after [toggleMark] of one of the four marks the selection covers
    as many pieces as before, and [Leaf] renders every one of them with that
    mark's tag if [isMarkActive] answered [false] before the toggle, and
    without it if it answered [true]. *)
Theorem toggleMark_rendered {EditorState : Type}
    (marksOf : EditorState → option Marks)
    (addMark : string → JsValue → EditorState → EditorState)
    (removeMark : string → EditorState → EditorState)
    (coveredMarks : EditorState → list Marks) (editor : EditorState)
    (format tag : string) :
  (format, tag) ∈ markTags →
  markCommandsTakeEffect marksOf addMark removeMark coveredMarks format editor →
  ∃ active editor1,
    isMarkActive marksOf editor format = Some active ∧
    toggleMark marksOf addMark removeMark editor format = Some editor1 ∧
    length (coveredMarks editor1) = length (coveredMarks editor) ∧
    ∀ marks1,
      marks1 ∈ coveredMarks editor1 →
      (tag ∈ Html_tags (Leaf marks1 Children) ↔ active = false).
Proof.
  intros Htag Heffect.
  destruct (toggleMark_covered marksOf addMark removeMark coveredMarks editor
    format Heffect) as (active & editor1 & Hactive & Htoggle & _ & Hcov).
  exists active, editor1. do 2 (split; [done|]).
  split; [by rewrite Hcov, length_fmap|].
  intros marks1 Hin. rewrite Hcov in Hin.
  apply list_elem_of_fmap in Hin as (marks & -> & _).
  rewrite (Leaf_tag_truthy _ format tag Htag). unfold getProp.
  destruct active.
  - by rewrite lookup_delete_eq.
  - by rewrite lookup_insert_eq.
Qed.

Lemma toggleMark_rendered_witness :
  ∃ active editor1,
    isMarkActive View_marks mixedSelection "italic" = Some active ∧
    toggleMark View_marks View_addMark View_removeMark mixedSelection "italic"
      = Some editor1 ∧
    length (View_covered editor1) = length (View_covered mixedSelection) ∧
    ∀ marks1,
      marks1 ∈ View_covered editor1 →
      ("em" ∈ Html_tags (Leaf marks1 Children) ↔ active = false).
Proof.
  apply (toggleMark_rendered View_marks View_addMark View_removeMark
    View_covered mixedSelection "italic" "em").
  - by apply (bool_decide_unpack _).
  - apply View_takeEffect. by eexists.
Defined.

(** X11. Key handling: an event that matches none of the hotkeys leaves the
    editor as it is and its default is not prevented; an event that matches
    exactly one hotkey toggles that hotkey's mark once, and its default is
    prevented, unless the toggle throws. *)
Theorem onKeyDown_matches {EditorState Event : Type}
    (isHotkey : string → Event → bool)
    (toggle : EditorState → string → option EditorState)
    (event : Event) (editor : EditorState) :
  ((∀ hotkey mark, (hotkey, mark) ∈ HOTKEYS → isHotkey hotkey event = false) →
   onKeyDown isHotkey toggle event editor = Some (false, editor)) ∧
  (∀ hotkey mark,
     (hotkey, mark) ∈ HOTKEYS →
     (∀ h m, (h, m) ∈ HOTKEYS → isHotkey h event = bool_decide (h = hotkey)) →
     onKeyDown isHotkey toggle event editor =
       (λ editor', (true, editor')) <$> toggle editor mark).
Proof.
  assert (Hb : ("mod+b", "bold") ∈ HOTKEYS) by (by apply (bool_decide_unpack _)).
  assert (Hi : ("mod+i", "italic") ∈ HOTKEYS) by (by apply (bool_decide_unpack _)).
  assert (Hu : ("mod+u", "underline") ∈ HOTKEYS)
    by (by apply (bool_decide_unpack _)).
  assert (Hc : ("mod+`", "code") ∈ HOTKEYS) by (by apply (bool_decide_unpack _)).
  split.
  - intros Hnone. unfold onKeyDown, HOTKEYS. simpl.
    by rewrite (Hnone _ _ Hb), (Hnone _ _ Hi), (Hnone _ _ Hu), (Hnone _ _ Hc).
  - intros hotkey mark Hin Hone. unfold onKeyDown. simpl.
    rewrite (Hone _ _ Hb), (Hone _ _ Hi), (Hone _ _ Hu), (Hone _ _ Hc).
    unfold HOTKEYS in Hin.
    repeat (apply elem_of_cons in Hin as [[= -> ->]|Hin];
            [simpl; by destruct (toggle editor _)|]).
    by apply elem_of_nil in Hin.
Qed.

Lemma onKeyDown_matches_witness :
  onKeyDown (λ hotkey (event : string), bool_decide (hotkey = event))
    (toggleMark View_marks View_addMark View_removeMark) "mod+i" (Caret ∅) =
  (λ editor', (true, editor')) <$>
    toggleMark View_marks View_addMark View_removeMark (Caret ∅) "italic".
Proof.
  apply (proj2 (onKeyDown_matches
    (λ hotkey (event : string), bool_decide (hotkey = event))
    (toggleMark View_marks View_addMark View_removeMark) "mod+i"
    (Caret ∅)) "mod+i" "italic").
  - by apply (bool_decide_unpack _).
  - intros h m _. reflexivity.
Defined.

(** X12. [Element] renders a list tag, [ol] or [ul], for exactly the types
    in [LIST_TYPES], the types [toggleBlock] wraps with; a missing type is
    not one of them. *)
Theorem Element_component_lists (type : option string) (children : Html) :
  (Element_component type children = Tag "ol" true children ∨
   Element_component type children = Tag "ul" true children) ↔
  includes LIST_TYPES type = true.
Proof.
  unfold Element_component.
  repeat case_bool_decide; subst;
    try solve
      [ split;
        [ intros [Hx|Hx]; first [discriminate Hx|vm_compute; reflexivity]
        | intros Hx; first [vm_compute in Hx; discriminate Hx|eauto] ] ].
  split; [intros [Hx|Hx]; discriminate Hx|].
  destruct type as [s|]; [|done]. simpl. intros Hin.
  apply bool_decide_eq_true in Hin. unfold LIST_TYPES in Hin.
  repeat (apply elem_of_cons in Hin as [->|Hin]; [done|]).
  by apply elem_of_nil in Hin.
Qed.
